(** * Vocabulary Builder: a shallow embedding of [script.js]

    The development follows the layout of the script: CSV parsing, the
    Fisher-Yates shuffle, distractor generation, the flash-card session
    with its requeue-on-failure queue, the progress store, the accuracy
    figures of the dashboards and the CSV upload of the admin page.

    Modelling conventions.
    - A JavaScript string is a Rocq [string]; only the ASCII letters have
      case and only the ASCII white space characters (TAB, LF, VT, FF, CR,
      SPACE) are white space.
    - [Math.random] is an oracle: a list of natural numbers consumed from
      the front, a draw for [i] being reduced modulo [i + 1].
    - [localStorage] is a record with one field per key the script uses.
      Values written with [JSON.stringify] and read back with [JSON.parse]
      are kept as the value itself; a blob that does not parse is
      [Corrupt].
    - An object used as a dictionary is a [gmap] of its own properties.
      The names every object inherits from [Object.prototype] are
      [Js.inheritedName]: a lookup under one of them finds the inherited
      object when there is no own property, and what the script then
      writes lands on that object, outside the store. Every page load
      starts with the built-in objects as the language defines them. The
      order of the keys of an object, which [JSON.stringify] and
      [Object.keys] follow, is not part of a [gmap]: statements about
      objects are about their properties, not about the order they are
      listed in.
    - Counters are integers ([Z]); the quotient and product in the accuracy
      figure are IEEE 754 binary64 operations, as in JavaScript. *)

From Stdlib Require Import String Ascii List ZArith Lia Bool Permutation.
From Stdlib Require Import Floats.
From stdpp Require Import gmap strings.
Import ListNotations.

Local Open Scope string_scope.
Local Open Scope list_scope.

(** ** Strings *)

Module Js.

Definition LF : ascii := "010"%char.
Definition CR : ascii := "013"%char.

(** White space removed by [String.prototype.trim]. *)
Definition isWhiteSpace (c : ascii) : bool :=
  match c with
  | "009" | "010" | "011" | "012" | "013" | " " => true
  | _ => false
  end%char.

Fixpoint trimStart (s : string) : string :=
  match s with
  | EmptyString => EmptyString
  | String c rest => if isWhiteSpace c then trimStart rest else s
  end.

Fixpoint trimEnd (s : string) : string :=
  match s with
  | EmptyString => EmptyString
  | String c rest =>
      match trimEnd rest with
      | EmptyString => if isWhiteSpace c then EmptyString else String c EmptyString
      | r => String c r
      end
  end.

Definition trim (s : string) : string := trimEnd (trimStart s).

Definition lowerChar (c : ascii) : ascii :=
  let n := nat_of_ascii c in
  if (65 <=? n)%nat && (n <=? 90)%nat then ascii_of_nat (n + 32) else c.

Fixpoint toLowerCase (s : string) : string :=
  match s with
  | EmptyString => EmptyString
  | String c rest => String (lowerChar c) (toLowerCase rest)
  end.

(** Truthiness of a string: the empty string is falsy. *)
Definition truthy (s : string) : bool :=
  match s with EmptyString => false | _ => true end.

(** [a || b] on strings. *)
Definition or_else (a b : string) : string := if truthy a then a else b.

(** Put a character in front of the first piece of a split. *)
Definition consHead (c : ascii) (pieces : list string) : list string :=
  match pieces with
  | p :: ps => String c p :: ps
  | [] => [String c EmptyString]
  end.

(** [s.split(sep)] for a separator that matches single characters. *)
Fixpoint splitOn (sep : ascii -> bool) (s : string) : list string :=
  match s with
  | EmptyString => [EmptyString]
  | String c rest =>
      if sep c then EmptyString :: splitOn sep rest
      else consHead c (splitOn sep rest)
  end.

Definition startsWith (c : ascii) (s : string) : bool :=
  match s with
  | String d _ => Ascii.eqb c d
  | EmptyString => false
  end.

(** [text.split(/\r?\n/)]: a line feed ends a line, and a carriage
    return right before it belongs to the separator. *)
Fixpoint splitLines (s : string) : list string :=
  match s with
  | EmptyString => [EmptyString]
  | String c rest =>
      if Ascii.eqb c LF then EmptyString :: splitLines rest
      else if Ascii.eqb c CR && startsWith LF rest then splitLines rest
      else consHead c (splitLines rest)
  end.

Fixpoint hasQuote (s : string) : bool :=
  match s with
  | EmptyString => false
  | String c rest => Ascii.eqb c "034"%char || hasQuote rest
  end.

(** [line.split(/,(?![^\"]*\")/g)]: a comma separates two fields unless
    a double quote occurs somewhere after it. *)
Fixpoint splitFields (line : string) : list string :=
  match line with
  | EmptyString => [EmptyString]
  | String c rest =>
      if Ascii.eqb c ","%char && negb (hasQuote rest)
      then EmptyString :: splitFields rest
      else consHead c (splitFields rest)
  end.

Definition isListSep (c : ascii) : bool :=
  Ascii.eqb c ";"%char || Ascii.eqb c "|"%char.

(** [str.split(/;|\|/).map((s) => s.trim()).filter(Boolean)] *)
Definition splitList (str : string) : list string :=
  List.filter truthy (map trim (splitOn isListSep str)).

(** The property names an object inherits from [Object.prototype]:
    [obj[name]] is a function (the prototype itself for [__proto__]),
    hence truthy, unless [obj] has a property of its own under [name]. *)
Definition inheritedNames : list string :=
  [ "constructor"; "hasOwnProperty"; "isPrototypeOf"; "propertyIsEnumerable";
    "toLocaleString"; "toString"; "valueOf"; "__proto__";
    "__defineGetter__"; "__defineSetter__"; "__lookupGetter__"; "__lookupSetter__" ].

Definition inheritedName (name : string) : bool :=
  existsb (String.eqb name) inheritedNames.

End Js.

(** ** Word entries and the CSV parser *)

Record WordEntry := {
  word : string;
  meaning : string;
  synonyms : list string;
  antonyms : list string;
  example : string
}.

(** The body of the loop of [parseCSV]: [words] is the array built so
    far, [line] the current line. *)
Definition parseLine (words : list WordEntry) (line : string) : list WordEntry :=
  if negb (Js.truthy line) then words
  else
    let parts := Js.splitFields line in
    if (length parts <? 5)%nat then words
    else
      match parts with
      | w :: m :: synStr :: antStr :: ex :: _ =>
          words ++ [ {| word := Js.trim w;
                        meaning := Js.trim m;
                        synonyms := Js.splitList synStr;
                        antonyms := Js.splitList antStr;
                        example := Js.trim ex |} ]
      | _ => words
      end.

Definition parseCSV (text : string) : list WordEntry :=
  let lines := Js.splitLines (Js.trim text) in
  (* lines.shift() *)
  let lines := tl lines in
  fold_left parseLine lines [].

(** ** Randomness and the Fisher-Yates shuffle *)

(** The oracle behind [Math.random]. *)
Definition Rng := list nat.

(** [Math.floor(Math.random() * (i + 1))]: some index between 0 and [i]. *)
Definition randomIndex (i : nat) (rng : Rng) : nat * Rng :=
  (hd 0%nat rng mod (i + 1), tl rng)%nat.

(** [[array[i], array[j]] = [array[j], array[i]]]; both indices are in
    range wherever the script swaps. *)
Definition swap {A} (i j : nat) (array : list A) : list A :=
  match array !! i, array !! j with
  | Some x, Some y => <[j := x]> (<[i := y]> array)
  | _, _ => array
  end.

(** The loop of [shuffleArray], from index [i] down to 1. *)
Fixpoint shuffleFrom {A} (i : nat) (array : list A) (rng : Rng) : list A * Rng :=
  match i with
  | O => (array, rng)
  | S i' =>
      let (j, rng') := randomIndex i rng in
      shuffleFrom i' (swap i j array) rng'
  end.

Definition shuffleArray {A} (array : list A) (rng : Rng) : list A * Rng :=
  shuffleFrom (length array - 1) array rng.

(** ** Distractor generation *)

(** [entry.meaning.split(' ')[0]] *)
Definition firstToken (s : string) : string :=
  hd EmptyString (Js.splitOn (Ascii.eqb " "%char) s).

(** [entry.synonyms[0] || entry.meaning.split(' ')[0] || entry.word];
    a missing first synonym is falsy like the empty string. *)
Definition correctOf (entry : WordEntry) : string :=
  Js.or_else (hd EmptyString (synonyms entry))
    (Js.or_else (firstToken (meaning entry)) (word entry)).

(** Case-insensitive equality, [a.toLowerCase() === b.toLowerCase()]. *)
Definition sameText (a b : string) : bool :=
  String.eqb (Js.toLowerCase a) (Js.toLowerCase b).

(** The first loop of [generateOptions]: the synonyms of the entries
    with another [word]. *)
Definition collectCandidates (entry : WordEntry) (allEntries : list WordEntry)
  : list string :=
  fold_left
    (fun candidates other =>
       if String.eqb (word other) (word entry) then candidates
       else candidates ++ synonyms other)
    allEntries [].

(** [new Set(xs)] followed by [Array.from]: the distinct strings in the
    order of their first occurrence. *)
Definition setAdd (set : list string) (x : string) : list string :=
  if existsb (String.eqb x) set then set else set ++ [x].

Definition newSet (xs : list string) : list string := fold_left setAdd xs [].

(** The loop over the shuffled candidates, with its [break]. *)
Fixpoint pickDistractors (entry : WordEntry) (candidateArray : list string)
    (distractors : list string) : list string :=
  match candidateArray with
  | [] => distractors
  | cand :: rest =>
      if (3 <=? length distractors)%nat then distractors
      else if negb (existsb (fun s => sameText s cand) (synonyms entry))
           then pickDistractors entry rest (distractors ++ [cand])
           else pickDistractors entry rest distractors
  end.

(** The first [while] loop: words of other entries, in pool order;
    [remaining] is [allEntries] from index [i] on. *)
Fixpoint fillFromWords (entry : WordEntry) (correct : string)
    (remaining : list WordEntry) (distractors : list string) : list string :=
  match remaining with
  | [] => distractors
  | otherWord :: rest =>
      if (length distractors <? 3)%nat then
        if negb (String.eqb (word otherWord) (word entry))
           && negb (sameText (word otherWord) correct)
        then fillFromWords entry correct rest (distractors ++ [word otherWord])
        else fillFromWords entry correct rest distractors
      else distractors
  end.

(** The second [while] loop: empty strings until there are three. *)
Definition padDistractors (distractors : list string) : list string :=
  distractors ++ repeat EmptyString (3 - length distractors).

(** The options before the final shuffle. *)
Definition optionsOf (entry : WordEntry) (candidateArray : list string)
    (allEntries : list WordEntry) : list string :=
  let correct := correctOf entry in
  let distractors := pickDistractors entry candidateArray [] in
  let distractors := fillFromWords entry correct allEntries distractors in
  let distractors := padDistractors distractors in
  correct :: firstn 3 distractors.

Definition generateOptions (entry : WordEntry) (allEntries : list WordEntry)
    (rng : Rng) : list string * Rng :=
  let correct := correctOf entry in
  let candidates := collectCandidates entry allEntries in
  let candidateSet :=
    newSet (List.filter (fun c => Js.truthy c && negb (sameText c correct)) candidates) in
  let (candidateArray, rng1) := shuffleArray candidateSet rng in
  shuffleArray (optionsOf entry candidateArray allEntries) rng1.

(** How often an option list shows a text, compared without case. *)
Definition occurrences (text : string) (opts : list string) : nat :=
  length (List.filter (fun o => sameText o text) opts).

(** ** The persistent store *)

Module Counter.
(** [{ attempts, correct }] of one word of one user. *)
Record t := { attempts : Z; correct : Z }.
Definition zero : t := {| attempts := 0; correct := 0 |}.
End Counter.

Module Result.
(** [{ word, correct }], one per answered card. *)
Record t := { word : string; correct : bool }.
End Result.

(** A stored string, seen through [JSON.parse]. *)
Inductive Blob (A : Type) : Type :=
| Corrupt : Blob A
| Json : A -> Blob A.
Arguments Corrupt {A}.
Arguments Json {A} _.

(** [localStorage]: [None] is what [getItem] answers with [null]. The
    progress object and the object of each user are the finite maps of
    their own properties; the order of their keys is not recorded. *)
Record Storage := {
  item_username : option string;
  item_words : option (Blob (list WordEntry));
  item_progress : option (Blob (gmap string (gmap string Counter.t)))
}.

(** The object [updateProgress] starts from: the parsed blob, or [{}]
    when the key is absent or its value does not parse. *)
Definition readProgress (store : Storage) : gmap string (gmap string Counter.t) :=
  match item_progress store with
  | Some (Json progress) => progress
  | _ => ∅
  end.

(** [if (!progress[username]) progress[username] = {}]: the test looks
    the name up with the prototype chain, so that a name inherited from
    [Object.prototype] counts as present and gets no entry. *)
Definition ensureUser (username : string)
    (progress : gmap string (gmap string Counter.t))
  : gmap string (gmap string Counter.t) :=
  match progress !! username with
  | Some _ => progress
  | None =>
      if Js.inheritedName username then progress
      else <[username := ∅]> progress
  end.

(** The counter of a word after one more result. *)
Definition bump (res : Result.t) (c : Counter.t) : Counter.t :=
  {| Counter.attempts := Counter.attempts c + 1;
     Counter.correct :=
       if Result.correct res then Counter.correct c + 1 else Counter.correct c |}.

(** The body of [results.forEach] in [updateProgress]. After
    [ensureUser], a user without an entry of its own has an inherited
    name: [progress[username]] is then an object of the language, and
    what the body writes to it is no part of [progress] (the script is
    not in strict mode: a write to a property of a number or a string
    found there is dropped). In the entry of
    a user, a word with a counter has it bumped; a word without one gets
    a counter, unless its name is inherited: the test
    [!progress[username][res.word]] then finds the inherited function,
    no counter is made, and the two updates land on that function. *)
Definition recordResult (username : string)
    (progress : gmap string (gmap string Counter.t)) (res : Result.t)
  : gmap string (gmap string Counter.t) :=
  match progress !! username with
  | None => progress
  | Some user =>
      match user !! Result.word res with
      | Some counter =>
          <[username := <[Result.word res := bump res counter]> user]> progress
      | None =>
          if Js.inheritedName (Result.word res) then progress
          else <[username := <[Result.word res := bump res Counter.zero]> user]> progress
      end
  end.

Definition updateProgress (username : string) (results : list Result.t)
    (store : Storage) : Storage :=
  if negb (Js.truthy username) then store
  else
    let progress := ensureUser username (readProgress store) in
    let progress := fold_left (recordResult username) results progress in
    {| item_username := item_username store;
       item_words := item_words store;
       item_progress := Some (Json progress) |}.

(** ** Accuracy figures *)

(** An integer counter as a JavaScript number (exact below 2^53). *)
Definition toNumber (z : Z) : float :=
  if (z <? 0)%Z then PrimFloat.opp (PrimFloat.of_uint63 (Uint63.of_Z (- z)))
  else PrimFloat.of_uint63 (Uint63.of_Z z).

(** [Math.round]: the nearest integer, a tie going up.  The value of a
    finite number is [m * 2^e], so the result is computed exactly. *)
Definition mathRound (x : float) : Z :=
  match Prim2SF x with
  | S754_finite s m e =>
      let n := (if s then Z.neg m else Z.pos m) in
      if (0 <=? e)%Z then (n * 2 ^ e)%Z
      else ((2 * n + 2 ^ (- e)) / (2 * 2 ^ (- e)))%Z
  | _ => 0%Z
  end.

(** [attempts ? Math.round((correct / attempts) * 100) : 0] *)
Definition accuracy (correct attempts : Z) : Z :=
  if (attempts =? 0)%Z then 0%Z
  else mathRound
         (PrimFloat.mul (PrimFloat.div (toNumber correct) (toNumber attempts))
            (toNumber 100)).

(** The percentage rounded exactly, a tie going up. *)
Definition exactPercent (correct attempts : Z) : Z :=
  ((200 * correct + attempts) / (2 * attempts))%Z.

(** The two totals accumulated over the counters of one user. *)
Definition totalAttempts (entries : gmap string Counter.t) : Z :=
  map_fold (fun _ c total => (total + Counter.attempts c)%Z) 0%Z entries.

Definition totalCorrect (entries : gmap string Counter.t) : Z :=
  map_fold (fun _ c total => (total + Counter.correct c)%Z) 0%Z entries.

Record Summary := {
  wordCount : nat;
  sumAttempts : Z;
  sumCorrect : Z;
  accuracyPercent : Z
}.

(** The figures both dashboards derive from the counters of one user;
    [renderDashboard] and [renderAdminProgress] compute them in line. *)
Definition computeSummary (entries : gmap string Counter.t) : Summary :=
  {| wordCount := size entries;
     sumAttempts := totalAttempts entries;
     sumCorrect := totalCorrect entries;
     accuracyPercent := accuracy (totalCorrect entries) (totalAttempts entries) |}.

(** One table row of [renderDashboard]: word, attempts, correct, accuracy. *)
Definition wordRow (w : string) (c : Counter.t) : string * Z * Z * Z :=
  (w, Counter.attempts c, Counter.correct c,
   accuracy (Counter.correct c) (Counter.attempts c)).

Inductive DashboardView :=
| DashMessage (text : string)
| DashTable (summary : Summary) (rows : list (string * Z * Z * Z)).

Definition renderDashboard (store : Storage) : DashboardView :=
  match item_username store with
  | None | Some EmptyString =>
      DashMessage "Please go back and enter your name to begin."
  | Some username =>
      match item_progress store with
      | None => DashMessage "No progress yet. Start learning to see your results."
      | Some Corrupt => DashMessage "Unable to load your progress."
      | Some (Json progress) =>
          let userProgress := default ∅ (progress !! username) in
          if (size userProgress =? 0)%nat
          then DashMessage "No progress yet. Start learning to see your results."
          else DashTable (computeSummary userProgress)
                 (map (fun '(w, c) => wordRow w c) (map_to_list userProgress))
      end
  end.

Inductive AdminView :=
| AdminMessage (text : string)
| AdminTable (rows : list (string * Summary)).

Definition renderAdminProgress (store : Storage) : AdminView :=
  match item_progress store with
  | None => AdminMessage "No student progress recorded yet."
  | Some Corrupt => AdminMessage "Unable to parse progress data."
  | Some (Json progress) =>
      if (size progress =? 0)%nat
      then AdminMessage "No student progress recorded yet."
      else AdminTable
             (map (fun '(student, entries) => (student, computeSummary entries))
                (map_to_list progress))
  end.

(** ** Messages *)

Definition successMessages : list string :=
  [ "Great job!"; "Correct! Keep it up!"; "Awesome work!";
    "You nailed it!"; "Excellent!" ].

Definition errorMessages : list string :=
  [ "Not quite. You can do it!"; "Almost! Keep trying!";
    "Don’t worry, learn and move on!";
    "Keep going, you’ll get it next time!";
    "Mistakes help you learn!" ].

(** [arr[Math.floor(Math.random() * arr.length)]] *)
Definition getMotivationalMessage (isCorrect : bool) (r : Rng) : string * Rng :=
  let arr := if isCorrect then successMessages else errorMessages in
  (nth (hd 0%nat r mod length arr) arr EmptyString, tl r).

(** ** The flash-card session *)

Record SessionCard := {
  entry : WordEntry;
  options : list string;
  correct : string
}.

(** [loadWords]: the uploaded list when the key holds one that parses,
    else the default CSV ([None] when fetching it fails). *)
Definition loadWords (store : Storage) (defaultCsv : option string)
  : list WordEntry :=
  match item_words store with
  | Some (Json custom) => custom
  | _ =>
      match defaultCsv with
      | Some text => parseCSV text
      | None => []
      end
  end.

(** The card [initFlashcards] builds for an entry drawn into the session:
    [{ entry, options, correct: entry.synonyms[0] || entry.word }]. *)
Definition cardCorrect (e : WordEntry) : string :=
  Js.or_else (hd EmptyString (synonyms e)) (word e).

Definition makeCard (allWords : list WordEntry) (e : WordEntry) (rng : Rng)
  : SessionCard * Rng :=
  let (opts, rng') := generateOptions e allWords rng in
  ({| entry := e; options := opts; correct := cardCorrect e |}, rng').

(** [entries.slice(...).map(...)], the oracle threaded through. *)
Fixpoint makeCards (allWords : list WordEntry) (drawn : list WordEntry)
    (rng : Rng) : list SessionCard * Rng :=
  match drawn with
  | [] => ([], rng)
  | e :: rest =>
      let (card, rng1) := makeCard allWords e rng in
      let (cards, rng2) := makeCards allWords rest rng1 in
      (card :: cards, rng2)
  end.

(** The variables the closures of [initFlashcards] share, the pieces of
    the page that gate the clicks, the text of the message element, and
    the store. *)
Record Session := {
  allWords : list WordEntry;
  username : string;
  queue : list SessionCard;
  results : list Result.t;
  currentCard : option SessionCard;
  optionsEnabled : bool;
  nextVisible : bool;
  message : string;
  finished : bool;
  rng : Rng;
  store : Storage
}.

Definition finishSession (s : Session) : Session :=
  {| allWords := allWords s; username := username s;
     queue := queue s; results := results s;
     currentCard := currentCard s;
     optionsEnabled := false; nextVisible := false;
     message := EmptyString;
     finished := true;
     rng := rng s;
     store := updateProgress (username s) (results s) (store s) |}.

Definition showCard (s : Session) : Session :=
  match queue s with
  | [] => finishSession s
  | card :: rest =>
      {| allWords := allWords s; username := username s;
         queue := rest; results := results s;
         currentCard := Some card;
         optionsEnabled := true; nextVisible := false;
         message := EmptyString;
         finished := finished s;
         rng := rng s; store := store s |}
  end.

(** The card pushed to the back of the queue after a wrong answer:
    [{ entry: card.entry, options: generateOptions(card.entry, allWords),
    correct: card.correct }]. *)
Definition requeuedCard (allWords : list WordEntry) (card : SessionCard)
    (rng : Rng) : SessionCard * Rng :=
  let (opts, rng') := generateOptions (entry card) allWords rng in
  ({| entry := entry card; options := opts; correct := correct card |}, rng').

(** The message is drawn on every answer, before the result is pushed
    and, after a wrong answer, before the options of the requeued card
    are generated. *)
Definition handleOptionClick (selectedOption : string) (card : SessionCard)
    (s : Session) : Session :=
  let isCorrect := sameText selectedOption (correct card) in
  let (text, rng1) := getMotivationalMessage isCorrect (rng s) in
  let results' :=
    results s ++ [ {| Result.word := word (entry card); Result.correct := isCorrect |} ] in
  if isCorrect then
    {| allWords := allWords s; username := username s;
       queue := queue s; results := results';
       currentCard := currentCard s;
       optionsEnabled := false; nextVisible := true;
       message := text;
       finished := finished s;
       rng := rng1; store := store s |}
  else
    let (fresh, rng2) := requeuedCard (allWords s) card rng1 in
    {| allWords := allWords s; username := username s;
       queue := queue s ++ [fresh];
       results := results';
       currentCard := currentCard s;
       optionsEnabled := false; nextVisible := true;
       message := text;
       finished := finished s;
       rng := rng2; store := store s |}.

Definition initFlashcards (st : Storage) (defaultCsv : option string)
    (r : Rng) : option Session :=
  let name :=
    match item_username st with
    | Some u => Js.or_else u "Guest"
    | None => "Guest"
    end in
  let words := loadWords st defaultCsv in
  if (length words =? 0)%nat then None
  else
    let (entries, r1) := shuffleArray words r in
    let (session, r2) :=
      makeCards words (firstn (Nat.min 10 (length entries)) entries) r1 in
    Some (showCard
            {| allWords := words; username := name;
               queue := session; results := [];
               currentCard := None;
               optionsEnabled := false; nextVisible := false;
               message := EmptyString;
               finished := false;
               rng := r2; store := st |}).

(** What the user can do on the page. *)
Inductive Event :=
| ClickOption (selectedOption : string)
| ClickNext.

(** A click reaches its handler only where the page lets it: an option
    button exists for each option of the card on display and is disabled
    by the first click; the Next button is visible after an answer. *)
Definition dispatch (s : Session) (ev : Event) : Session :=
  match ev with
  | ClickOption selectedOption =>
      match currentCard s with
      | Some card =>
          if optionsEnabled s && existsb (String.eqb selectedOption) (options card)
          then handleOptionClick selectedOption card s
          else s
      | None => s
      end
  | ClickNext => if nextVisible s then showCard s else s
  end.

Definition run (s : Session) (events : list Event) : Session :=
  fold_left dispatch events s.

Definition incorrectCount (rs : list Result.t) : nat :=
  length (List.filter (fun r => negb (Result.correct r)) rs).

(** ** The CSV upload of the admin page *)

Inductive UploadOutcome :=
| Alert (text : string)
| Uploaded (count : nat).

(** The click handler of the upload button together with [reader.onload];
    [file] is the text of the chosen file, if one was chosen. *)
Definition uploadCsv (file : option string) (st : Storage)
  : Storage * UploadOutcome :=
  match file with
  | None => (st, Alert "Please select a CSV file.")
  | Some text =>
      let entries := parseCSV text in
      if (length entries =? 0)%nat
      then (st, Alert "No entries found in the CSV file.")
      else ({| item_username := item_username st;
               item_words := Some (Json entries);
               item_progress := item_progress st |},
            Uploaded (length entries))
  end.

(** ** Vocabulary of the statements *)

(** A string of white space only. *)
Fixpoint isBlank (s : string) : bool :=
  match s with
  | EmptyString => true
  | String c rest => Js.isWhiteSpace c && isBlank rest
  end.

Fixpoint hasLF (s : string) : bool :=
  match s with
  | EmptyString => false
  | String c rest => Ascii.eqb c Js.LF || hasLF rest
  end.

(** The entries a single line contributes. *)
Definition entriesOfLine (line : string) : list WordEntry := parseLine [] line.

(** Two lists of lines that differ in white space at the end of the
    text only: the last line of the first list may be longer in the
    second by some white space, and blank lines may follow it. *)
Inductive sameUpToTail : list string -> list string -> Prop :=
| sameUpToTail_last l w blanks :
    isBlank w = true ->
    Forall (fun b => isBlank b = true) blanks ->
    sameUpToTail [l] ((l +:+ w) :: blanks)
| sameUpToTail_cons l ls ls' :
    sameUpToTail ls ls' ->
    sameUpToTail (l :: ls) (l :: ls').

(** What holds of a session of [n] drawn cards between two clicks: every
    drawn card and every requeued one is either answered, on display and
    waiting for its answer, or in the queue; the Next button and the
    enabled options are never there together; a finished session has
    nothing left. *)
Definition pendingCards (s : Session) : nat :=
  (length (queue s) + (if optionsEnabled s then 1 else 0))%nat.

Definition sessionInv (n : nat) (s : Session) : Prop :=
  (length (results s) + pendingCards s = n + incorrectCount (results s))%nat /\
  (optionsEnabled s = true -> nextVisible s = false /\ finished s = false) /\
  (finished s = true -> queue s = [] /\ nextVisible s = false).

(** The counter of word [w] for user [u], if the store has one. *)
Definition counterOf (progress : gmap string (gmap string Counter.t))
    (u w : string) : option Counter.t :=
  match progress !! u with
  | Some entries => entries !! w
  | None => None
  end.

(** How many results are about word [w], and how many of them are correct. *)
Definition timesAnswered (w : string) (rs : list Result.t) : Z :=
  Z.of_nat (length (List.filter (fun r => String.eqb (Result.word r) w) rs)).

Definition timesCorrect (w : string) (rs : list Result.t) : Z :=
  Z.of_nat (length (List.filter
                      (fun r => String.eqb (Result.word r) w && Result.correct r) rs)).


(** The counter [c] after the results of [rs] for the word [w]. *)
Definition grown (c : Counter.t) (w : string) (rs : list Result.t) : Counter.t :=
  {| Counter.attempts := Counter.attempts c + timesAnswered w rs;
     Counter.correct := Counter.correct c + timesCorrect w rs |}.

(** Whether [updateProgress], starting from [progress], counts a result
    of user [u] for word [w]. A user with an entry has the result counted
    when the word has a counter there, or can get one: its name is not an
    inherited one. A user without an entry gets one, and the word a
    counter, when neither name is inherited. *)
Definition counts (progress : gmap string (gmap string Counter.t))
    (u w : string) : bool :=
  match progress !! u with
  | Some user =>
      match user !! w with
      | Some _ => true
      | None => negb (Js.inheritedName w)
      end
  | None => negb (Js.inheritedName u) && negb (Js.inheritedName w)
  end.

(** ** Sample data *)

Definition nl : string := String Js.LF EmptyString.

Definition sampleCsv : string :=
  "word,meaning,synonyms,antonyms,example" +:+ nl +:+
  "cat,feline,kitty;tomcat,dog,A cat sat." +:+ nl.

Definition catEntry : WordEntry :=
  {| word := "cat"; meaning := "feline";
     synonyms := ["kitty"; "tomcat"]; antonyms := ["dog"];
     example := "A cat sat." |}.

(** An entry with nothing in it, as the line [,,,,] parses. *)
Definition blankEntry : WordEntry :=
  {| word := EmptyString; meaning := EmptyString;
     synonyms := []; antonyms := []; example := EmptyString |}.

(** An entry without synonyms. *)
Definition lonelyEntry : WordEntry :=
  {| word := "cat"; meaning := "feline animal";
     synonyms := []; antonyms := ["dog"];
     example := "A cat sat." |}.

Definition dogEntry : WordEntry :=
  {| word := "dog"; meaning := "canine";
     synonyms := ["hound"; "pooch"]; antonyms := ["cat"];
     example := "A dog ran." |}.

Definition demoStore : Storage :=
  {| item_username := Some "Ann";
     item_words := Some (Json [catEntry; dogEntry]);
     item_progress := None |}.

Definition lonelyStore : Storage :=
  {| item_username := Some "Ann";
     item_words := Some (Json [lonelyEntry]);
     item_progress := None |}.

(** Counters whose percentage is 57.5. *)
Definition halfCounters : gmap string Counter.t :=
  {[ "cat" := {| Counter.attempts := 40; Counter.correct := 23 |} ]}.

Definition header : string := "word,meaning,synonyms,antonyms,example".

Definition demoEvents : list Event :=
  [ ClickOption "kitty"; ClickNext;
    ClickOption "kitty"; ClickNext;
    ClickOption "hound"; ClickNext ].

Definition demoResults : list Result.t :=
  [ {| Result.word := "cat"; Result.correct := true |};
    {| Result.word := "cat"; Result.correct := false |};
    {| Result.word := "dog"; Result.correct := true |} ].

(** Numbers for the random source. *)
Definition demoDraws : Rng :=
  [1; 0; 3; 2; 1; 0; 2; 1; 3; 0; 1; 2; 4; 1; 0; 2; 3; 1; 5; 2; 1; 0; 3]%nat.

(** A store in which Ann has answered before. *)
Definition pastStore : Storage :=
  {| item_username := Some "Ann";
     item_words := None;
     item_progress := Some (Json {[ "Ann" := halfCounters ]}) |}.

(** Results of which one is for a word with an inherited name. *)
Definition mixedResults : list Result.t :=
  [ {| Result.word := "cat"; Result.correct := true |};
    {| Result.word := "constructor"; Result.correct := false |};
    {| Result.word := "cat"; Result.correct := false |};
    {| Result.word := "dog"; Result.correct := true |} ].

(** ** The start page *)

(** The click handler of the start button in [initIndex]:
    [const name = nameInput.value.trim() || 'Guest'], stored under
    [username]; [input] is the value of the name field. *)
Definition startLearning (input : string) (st : Storage) : Storage :=
  {| item_username := Some (Js.or_else (Js.trim input) "Guest");
     item_words := item_words st;
     item_progress := item_progress st |}.

(** ** Vocabulary of the further statements *)

Definition quote : ascii := "034"%char.

Fixpoint hasChar (p : ascii -> bool) (s : string) : bool :=
  match s with
  | EmptyString => false
  | String c rest => p c || hasChar p rest
  end.

(** The text with every line feed written as carriage return, line feed. *)
Fixpoint toCRLF (s : string) : string :=
  match s with
  | EmptyString => EmptyString
  | String c rest =>
      if Ascii.eqb c Js.LF then String Js.CR (String Js.LF (toCRLF rest))
      else String c (toCRLF rest)
  end.

(** A scalar field as [parseCSV] leaves it, and a list field. *)
Definition trimmed (s : string) : Prop := Js.trim s = s.

Definition listItem (s : string) : Prop :=
  s <> EmptyString /\ trimmed s /\ hasChar Js.isListSep s = false.

Definition parsedEntry (e : WordEntry) : Prop :=
  trimmed (word e) /\ trimmed (meaning e) /\ trimmed (example e) /\
  Forall listItem (synonyms e) /\ Forall listItem (antonyms e).

(** Where a distractor of [entry] comes from: a synonym of an entry
    with another word, not empty, reading neither like the correct answer
    nor like a synonym of [entry]; or the word of an entry with another
    word, not reading like the correct answer; or the placeholder. *)
Definition fromSynonyms (e : WordEntry) (pool : list WordEntry) (d : string) : Prop :=
  d <> EmptyString /\
  sameText d (correctOf e) = false /\
  existsb (fun s => sameText s d) (synonyms e) = false /\
  exists other, In other pool /\ word other <> word e /\ In d (synonyms other).

Definition fromWords (e : WordEntry) (pool : list WordEntry) (d : string) : Prop :=
  sameText d (correctOf e) = false /\
  exists other, In other pool /\ word other <> word e /\ d = word other.

Definition distractorOf (e : WordEntry) (pool : list WordEntry) (d : string) : Prop :=
  fromSynonyms e pool d \/ fromWords e pool d \/ d = EmptyString.

(** An entry whose word the second loop of [generateOptions] accepts. *)
Definition fallbackWord (e : WordEntry) (other : WordEntry) : bool :=
  negb (String.eqb (word other) (word e))
  && negb (sameText (word other) (correctOf e)).

(** The cards still to be answered: the one on display while its
    options accept a click, then the queue. *)
Definition cardsInPlay (s : Session) : list SessionCard :=
  (if optionsEnabled s
   then match currentCard s with Some card => [card] | None => [] end
   else []) ++ queue s.

Definition wordOfCard (card : SessionCard) : string := word (entry card).

(** Some result records a correct answer for the word. *)
Definition answeredCorrectly (w : string) (rs : list Result.t) : Prop :=
  In {| Result.word := w; Result.correct := true |} rs.

(** A card as the session makes them: for an entry of the pool, with
    four options, the correct option of [generateOptions] among them, and
    the answer [initFlashcards] stores. *)
Definition wellFormedCard (pool : list WordEntry) (card : SessionCard) : Prop :=
  In (entry card) pool /\
  length (options card) = 4%nat /\
  In (correctOf (entry card)) (options card) /\
  correct card = cardCorrect (entry card).

(** The clicks of a user who picks the stored answer of every card. *)
Definition perfectEvents (cards : list SessionCard) : list Event :=
  flat_map (fun card => [ClickOption (correct card); ClickNext]) cards.

Definition correctResult (card : SessionCard) : Result.t :=
  {| Result.word := wordOfCard card; Result.correct := true |}.

(** The user name a session runs under. *)
Definition sessionUser (st : Storage) : string :=
  match item_username st with
  | Some u => Js.or_else u "Guest"
  | None => "Guest"
  end.

(** The counters of user [u]: [progress[u] || {}]. *)
Definition countersOf (progress : gmap string (gmap string Counter.t)) (u : string)
  : gmap string Counter.t :=
  default ∅ (progress !! u).

(** The results [updateProgress] counts for user [u]. *)
Definition countedResults (progress : gmap string (gmap string Counter.t))
    (u : string) (rs : list Result.t) : list Result.t :=
  List.filter (fun r => counts progress u (Result.word r)) rs.

Definition sumZ (l : list Z) : Z := fold_right Z.add 0%Z l.

(** The ratios of correct answers to attempts, in two-hundredths, at
    which the figure of the code falls one short of the rounded
    percentage: 14.5, 28.5, 56.5 and 57.5 per cent. *)
Definition lowRatios : list Z := [29; 57; 113; 115]%Z.

Definition lowFigure (correct attempts : Z) : bool :=
  existsb (fun k => (200 * correct =? k * attempts)%Z) lowRatios.

(** [Math.round] with shifts for the power of two; it computes faster
    and is the same function ([mathRound_shift]). *)
Definition mathRoundShift (x : float) : Z :=
  match Prim2SF x with
  | S754_finite s m e =>
      let n := (if s then Z.neg m else Z.pos m) in
      if (0 <=? e)%Z then Z.shiftl n e
      else Z.shiftr (2 * n + Z.shiftl 1 (- e)) (1 - e)
  | _ => 0%Z
  end.

Definition accuracyShift (correct attempts : Z) : Z :=
  if (attempts =? 0)%Z then 0%Z
  else mathRoundShift
         (PrimFloat.mul (PrimFloat.div (toNumber correct) (toNumber attempts))
            (toNumber 100)).

(** The figure is the rounded percentage, or one less at a low ratio. *)
Definition accuracyOk (correct attempts : Z) : bool :=
  (accuracyShift correct attempts
   =? exactPercent correct attempts - (if lowFigure correct attempts then 1 else 0))%Z.

Definition accuracyOkRow (attempts : nat) : bool :=
  forallb (fun c => accuracyOk (Z.of_nat c) (Z.of_nat attempts))
    (seq 0 (S attempts)).

Definition accuracyOkUpTo (n : nat) : bool := forallb accuracyOkRow (seq 1 n).

(** The columns of a row of the table of [renderDashboard]. *)
Definition rowWord (row : string * Z * Z * Z) : string := let '(w, _, _, _) := row in w.
Definition rowAttempts (row : string * Z * Z * Z) : Z := let '(_, a, _, _) := row in a.
Definition rowCorrect (row : string * Z * Z * Z) : Z := let '(_, _, c, _) := row in c.

(** * Properties *)

(** C5: the sample of the specification parses to the single entry for
    "cat", with its two synonyms in order, one antonym and the example;
    the header line is not an entry.  The same entry comes out under
    another header, with [|] between the synonyms, an empty synonym and
    white space around the fields. *)
Theorem parseCSV_sample :
  parseCSV sampleCsv = [catEntry] /\
  parseCSV ("any first line" +:+ nl +:+
            " cat , feline ,kitty | tomcat;; , dog ,  A cat sat. " +:+ nl)
    = [catEntry].
Proof. split; vm_compute; reflexivity. Qed.

(** ** Strings *)

Lemma app_String c (s t : string) : String c s +:+ t = String c (s +:+ t).
Proof. reflexivity. Qed.

Lemma app_empty_l (t : string) : EmptyString +:+ t = t.
Proof. reflexivity. Qed.

Lemma app_empty_r (s : string) : s +:+ EmptyString = s.
Proof. induction s as [|c s IH]; [reflexivity|]. rewrite app_String, IH. reflexivity. Qed.

Lemma app_assoc_str (s t u : string) : (s +:+ t) +:+ u = s +:+ (t +:+ u).
Proof.
  induction s as [|c s IH]; [reflexivity|].
  rewrite !app_String, IH. reflexivity.
Qed.

Lemma isBlank_app (s t : string) :
  isBlank (s +:+ t) = isBlank s && isBlank t.
Proof.
  induction s as [|c s IH]; [reflexivity|].
  rewrite app_String. simpl. rewrite IH. apply andb_assoc.
Qed.

Lemma trimStart_blank (s : string) : isBlank s = true -> Js.trimStart s = EmptyString.
Proof.
  induction s as [|c s IH]; simpl; [reflexivity|].
  intros [Hc Hs]%andb_true_iff. rewrite Hc. auto.
Qed.

Lemma trimStart_empty_blank (s : string) :
  Js.trimStart s = EmptyString -> isBlank s = true.
Proof.
  induction s as [|c s IH]; simpl; [reflexivity|].
  destruct (Js.isWhiteSpace c); [auto | discriminate].
Qed.

Lemma trimStart_app_blank (s t : string) :
  isBlank s = true -> Js.trimStart (s +:+ t) = Js.trimStart t.
Proof.
  induction s as [|c s IH]; [reflexivity|].
  simpl. intros [Hc Hs]%andb_true_iff. rewrite Hc. auto.
Qed.

Lemma trimStart_app (s t : string) :
  Js.trimStart s <> EmptyString -> Js.trimStart (s +:+ t) = Js.trimStart s +:+ t.
Proof.
  induction s as [|c s IH]; simpl; [congruence|].
  destruct (Js.isWhiteSpace c); auto.
Qed.

Lemma trimEnd_empty_blank (s : string) :
  Js.trimEnd s = EmptyString -> isBlank s = true.
Proof.
  induction s as [|c s IH]; simpl; [reflexivity|].
  destruct (Js.trimEnd s); [|discriminate].
  destruct (Js.isWhiteSpace c); [auto | discriminate].
Qed.

Lemma trimEnd_blank (s : string) : isBlank s = true -> Js.trimEnd s = EmptyString.
Proof.
  induction s as [|c s IH]; simpl; [reflexivity|].
  intros [Hc Hs]%andb_true_iff. rewrite IH, Hc by assumption. reflexivity.
Qed.

Lemma trimEnd_app_blank (s w : string) :
  isBlank w = true -> Js.trimEnd (s +:+ w) = Js.trimEnd s.
Proof.
  intros Hw. induction s as [|c s IH].
  - rewrite app_empty_l. apply trimEnd_blank, Hw.
  - rewrite app_String. simpl. rewrite IH. reflexivity.
Qed.

Lemma trim_app_blank (s w : string) :
  isBlank w = true -> Js.trim (s +:+ w) = Js.trim s.
Proof.
  intros Hw. unfold Js.trim.
  destruct (Js.trimStart s) eqn:E.
  - apply trimStart_empty_blank in E.
    rewrite trimStart_app_blank, (trimStart_blank w) by assumption. reflexivity.
  - rewrite trimStart_app by congruence. rewrite E.
    apply trimEnd_app_blank, Hw.
Qed.

(** ** Fields of a line *)

Lemma splitFields_not_nil (l : string) : Js.splitFields l <> [].
Proof.
  destruct l as [|c l]; simpl; [discriminate|].
  destruct (_ && _); [discriminate|].
  destruct (Js.splitFields l); discriminate.
Qed.

Lemma whiteSpace_not_quote c : Js.isWhiteSpace c = true -> Ascii.eqb c "034"%char = false.
Proof.
  destruct (Ascii.eqb c "034"%char) eqn:E; [|reflexivity].
  apply Ascii.eqb_eq in E. subst c. discriminate.
Qed.

Lemma whiteSpace_not_comma c : Js.isWhiteSpace c = true -> Ascii.eqb c ","%char = false.
Proof.
  destruct (Ascii.eqb c ","%char) eqn:E; [|reflexivity].
  apply Ascii.eqb_eq in E. subst c. discriminate.
Qed.

Lemma hasQuote_blank (w : string) : isBlank w = true -> Js.hasQuote w = false.
Proof.
  induction w as [|c w IH]; simpl; [reflexivity|].
  intros [Hc Hw]%andb_true_iff.
  rewrite (whiteSpace_not_quote c Hc), IH by assumption. reflexivity.
Qed.

Lemma hasQuote_app (s t : string) :
  Js.hasQuote (s +:+ t) = Js.hasQuote s || Js.hasQuote t.
Proof.
  induction s as [|c s IH]; simpl; [reflexivity|].
  rewrite IH. apply orb_assoc.
Qed.

Lemma splitFields_blank (w : string) : isBlank w = true -> Js.splitFields w = [w].
Proof.
  induction w as [|c w IH]; simpl; [reflexivity|].
  intros [Hc Hw]%andb_true_iff.
  rewrite (whiteSpace_not_comma c Hc), IH by assumption. reflexivity.
Qed.

(** White space at the end of a line only lengthens its last field. *)
Lemma splitFields_app_blank (l w : string) :
  isBlank w = true ->
  exists fs f, Js.splitFields l = fs ++ [f] /\ Js.splitFields (l +:+ w) = fs ++ [f +:+ w].
Proof.
  intros Hw. induction l as [|c l (fs & f & E1 & E2)].
  - exists [], EmptyString. split; [reflexivity|].
    simpl. apply splitFields_blank, Hw.
  - simpl. rewrite hasQuote_app, (hasQuote_blank w Hw), orb_false_r.
    destruct (Ascii.eqb c ","%char && negb (Js.hasQuote l)).
    + exists (EmptyString :: fs), f. rewrite E1, E2. split; reflexivity.
    + rewrite E1, E2. destruct fs as [|x xs].
      * exists [], (String c f). split; reflexivity.
      * exists (String c x :: xs), f. split; reflexivity.
Qed.

(** ** One line of the CSV *)

Lemma parseLine_acc (words : list WordEntry) (line : string) :
  parseLine words line = words ++ entriesOfLine line.
Proof.
  unfold entriesOfLine, parseLine.
  destruct (negb (Js.truthy line)); [symmetry; apply app_nil_r|].
  destruct (length (Js.splitFields line) <? 5)%nat; [symmetry; apply app_nil_r|].
  destruct (Js.splitFields line) as [|w [|m [|sy [|an [|ex rest]]]]];
    try (symmetry; apply app_nil_r).
  reflexivity.
Qed.

Lemma fold_parseLine (lines : list string) (words : list WordEntry) :
  fold_left parseLine lines words = words ++ flat_map entriesOfLine lines.
Proof.
  revert words. induction lines as [|l ls IH]; intros words; simpl.
  - symmetry. apply app_nil_r.
  - rewrite IH, parseLine_acc, <- app_assoc. reflexivity.
Qed.

Lemma entriesOfLine_short (line : string) :
  (length (Js.splitFields line) < 5)%nat -> entriesOfLine line = [].
Proof.
  intros H. unfold entriesOfLine, parseLine.
  destruct (negb (Js.truthy line)); [reflexivity|].
  apply Nat.ltb_lt in H. rewrite H. reflexivity.
Qed.

Lemma entriesOfLine_blank (w : string) : isBlank w = true -> entriesOfLine w = [].
Proof.
  intros Hw. apply entriesOfLine_short.
  rewrite (splitFields_blank w Hw). simpl. lia.
Qed.

Lemma truthy_app (l w : string) :
  Js.truthy l = true -> Js.truthy (l +:+ w) = true.
Proof. destruct l; [discriminate | reflexivity]. Qed.

(** White space at the end of a line does not change what it yields. *)
Lemma entriesOfLine_app_blank (l w : string) :
  isBlank w = true -> entriesOfLine (l +:+ w) = entriesOfLine l.
Proof.
  intros Hw. destruct (Js.truthy l) eqn:Hl.
  - unfold entriesOfLine, parseLine.
    rewrite (truthy_app l w Hl), Hl. simpl negb. cbv iota.
    destruct (splitFields_app_blank l w Hw) as (fs & f & E1 & E2).
    rewrite E1, E2, !length_app. simpl length.
    destruct fs as [|a [|b [|c [|d [|e rest]]]]]; try reflexivity.
    simpl. rewrite (trim_app_blank f w Hw). reflexivity.
  - destruct l; [|discriminate]. rewrite app_empty_l.
    rewrite (entriesOfLine_blank w Hw). reflexivity.
Qed.

(** ** Lines of a text *)

Lemma splitLines_not_nil (s : string) : Js.splitLines s <> [].
Proof.
  induction s as [|c s IH]; simpl; [discriminate|].
  destruct (Ascii.eqb c Js.LF); [discriminate|].
  destruct (_ && _); [assumption|].
  destruct (Js.splitLines s); discriminate.
Qed.

Lemma Forall_blank_consHead c (ls : list string) :
  Js.isWhiteSpace c = true ->
  Forall (fun b => isBlank b = true) ls ->
  Forall (fun b => isBlank b = true) (Js.consHead c ls).
Proof.
  intros Hc H. destruct H as [|l ls Hl Hls]; simpl.
  - constructor; [simpl; rewrite Hc; reflexivity | constructor].
  - constructor; [simpl; rewrite Hc, Hl; reflexivity | assumption].
Qed.

Lemma splitLines_blank (s : string) :
  isBlank s = true -> Forall (fun b => isBlank b = true) (Js.splitLines s).
Proof.
  induction s as [|c s IH]; simpl.
  - intros _. constructor; [reflexivity | constructor].
  - intros [Hc Hs]%andb_true_iff.
    destruct (Ascii.eqb c Js.LF); [constructor; [reflexivity | auto]|].
    destruct (_ && _); [auto|].
    apply Forall_blank_consHead; auto.
Qed.

Lemma sameUpToTail_consHead c (ls ls' : list string) :
  sameUpToTail ls ls' -> sameUpToTail (Js.consHead c ls) (Js.consHead c ls').
Proof.
  intros H. destruct H as [l w blanks Hw Hb | l ls ls' H]; simpl.
  - change (String c (l +:+ w)) with (String c l +:+ w).
    constructor; assumption.
  - constructor; assumption.
Qed.

Lemma trimEnd_head (s : string) d r :
  Js.trimEnd s = String d r -> exists r', s = String d r'.
Proof.
  destruct s as [|c s]; simpl; [discriminate|].
  destruct (Js.trimEnd s).
  - destruct (Js.isWhiteSpace c); [discriminate|].
    intros [= <- _]. eauto.
  - intros [= <- _]. eauto.
Qed.

Lemma not_whiteSpace_LF c : Js.isWhiteSpace c = false -> Ascii.eqb c Js.LF = false.
Proof.
  intros H. destruct (Ascii.eqb c Js.LF) eqn:E; [|reflexivity].
  apply Ascii.eqb_eq in E. subst c. discriminate.
Qed.

Lemma not_whiteSpace_CR c : Js.isWhiteSpace c = false -> Ascii.eqb c Js.CR = false.
Proof.
  intros H. destruct (Ascii.eqb c Js.CR) eqn:E; [|reflexivity].
  apply Ascii.eqb_eq in E. subst c. discriminate.
Qed.

(** Trimming the end of a text changes its lines at the tail only. *)
Lemma splitLines_trimEnd (s : string) :
  sameUpToTail (Js.splitLines (Js.trimEnd s)) (Js.splitLines s).
Proof.
  induction s as [|c s IH].
  - simpl. apply (sameUpToTail_last EmptyString EmptyString []); [reflexivity | constructor].
  - cbn [Js.trimEnd]. destruct (Js.trimEnd s) as [|d r] eqn:E.
    + pose proof (trimEnd_empty_blank s E) as Hs.
      pose proof (splitLines_blank s Hs) as Hb.
      destruct (Js.isWhiteSpace c) eqn:Hc.
      * assert (Hall : isBlank (String c s) = true) by (simpl; rewrite Hc, Hs; reflexivity).
        pose proof (splitLines_blank _ Hall) as Hb'.
        pose proof (splitLines_not_nil (String c s)) as Hne.
        destruct (Js.splitLines (String c s)) as [|w bs]; [congruence|].
        inversion Hb'; subst.
        apply (sameUpToTail_last EmptyString w bs); assumption.
      * simpl. rewrite (not_whiteSpace_LF c Hc), (not_whiteSpace_CR c Hc). simpl.
        pose proof (splitLines_not_nil s) as Hne.
        destruct (Js.splitLines s) as [|w bs]; [congruence|].
        inversion Hb; subst. simpl.
        apply (sameUpToTail_last (String c EmptyString) w bs); assumption.
    + destruct (trimEnd_head s d r E) as [r' ->].
      cbn [Js.splitLines]. cbn [Js.startsWith].
      destruct (Ascii.eqb c Js.LF).
      * constructor. exact IH.
      * destruct (Ascii.eqb c Js.CR && Ascii.eqb Js.LF d); [exact IH|].
        apply sameUpToTail_consHead. exact IH.
Qed.

Lemma sameUpToTail_entries (ls ls' : list string) :
  sameUpToTail ls ls' ->
  flat_map entriesOfLine ls' = flat_map entriesOfLine ls.
Proof.
  induction 1 as [l w blanks Hw Hb | l ls ls' H IH]; simpl.
  - rewrite (entriesOfLine_app_blank l w Hw). f_equal.
    induction Hb as [|b bs Hb1 Hb2 IHb]; simpl; [reflexivity|].
    rewrite (entriesOfLine_blank b Hb1), IHb. reflexivity.
  - rewrite IH. reflexivity.
Qed.

Lemma sameUpToTail_tl_entries (ls ls' : list string) :
  sameUpToTail ls ls' ->
  flat_map entriesOfLine (tl ls') = flat_map entriesOfLine (tl ls).
Proof.
  intros H. destruct H as [l w blanks Hw Hb | l ls ls' H]; simpl.
  - induction Hb as [|b bs Hb1 Hb2 IHb]; simpl; [reflexivity|].
    rewrite (entriesOfLine_blank b Hb1), IHb. reflexivity.
  - apply sameUpToTail_entries, H.
Qed.

(** The entries of a text: every line after the first one of the text
    without its leading white space, each on its own. *)
Lemma parseCSV_lines (text : string) :
  parseCSV text = flat_map entriesOfLine (tl (Js.splitLines (Js.trimStart text))).
Proof.
  unfold parseCSV, Js.trim. rewrite fold_parseLine. simpl.
  symmetry. apply sameUpToTail_tl_entries, splitLines_trimEnd.
Qed.

Lemma startsWith_app c (s t : string) :
  s <> EmptyString -> Js.startsWith c (s +:+ t) = Js.startsWith c s.
Proof. destruct s; [congruence | reflexivity]. Qed.

(** The lines of a text that goes on after a line feed. *)
Lemma splitLines_app_nl (a : string) :
  exists ls, ls <> [] /\ forall y, Js.splitLines (a +:+ nl +:+ y) = ls ++ Js.splitLines y.
Proof.
  induction a as [|c a (ls & Hne & IH)].
  - exists [EmptyString]. split; [discriminate | reflexivity].
  - assert (Hs : forall y, Js.startsWith Js.LF (a +:+ nl +:+ y)
                           = Js.startsWith Js.LF (a +:+ nl)).
    { intros y. destruct a; reflexivity. }
    destruct (Ascii.eqb c Js.LF) eqn:Ec;
      [|destruct (Ascii.eqb c Js.CR && Js.startsWith Js.LF (a +:+ nl)) eqn:E].
    + exists (EmptyString :: ls). split; [discriminate|].
      intros y. rewrite app_String. cbn [Js.splitLines].
      rewrite Ec, IH. reflexivity.
    + exists ls. split; [assumption|].
      intros y. rewrite app_String. cbn [Js.splitLines].
      rewrite Ec, Hs, E. apply IH.
    + exists (Js.consHead c ls). split.
      { destruct ls; discriminate. }
      intros y. rewrite app_String. cbn [Js.splitLines].
      rewrite Ec, Hs, E, IH. destruct ls; [congruence | reflexivity].
Qed.

(** A piece of text without line feed, followed by one, is one line:
    the piece itself, or the piece without its final carriage return. *)
Lemma splitLines_one_line (line : string) :
  hasLF line = false ->
  exists l w, line = l +:+ w /\ isBlank w = true /\
    forall y, Js.splitLines (line +:+ nl +:+ y) = l :: Js.splitLines y.
Proof.
  induction line as [|c line IH].
  - intros _. exists EmptyString, EmptyString. repeat split.
  - cbn [hasLF]. intros [Hc Hl]%orb_false_iff.
    destruct (IH Hl) as (l & w & E & Hw & Hy).
    destruct line as [|d line'].
    + destruct (Ascii.eqb c Js.CR) eqn:Ec.
      * apply Ascii.eqb_eq in Ec. subst c.
        exists EmptyString, (String Js.CR EmptyString). repeat split.
      * exists (String c EmptyString), EmptyString. split; [reflexivity|].
        split; [reflexivity|]. intros y.
        rewrite app_String. cbn [Js.splitLines]. rewrite Hc, Ec. reflexivity.
    + exists (String c l), w. split; [rewrite E; reflexivity|]. split; [assumption|].
      intros y. simpl in Hl. apply orb_false_iff in Hl as [Hd _].
      rewrite app_String. cbn [Js.splitLines]. rewrite Hc.
      rewrite startsWith_app by discriminate. cbn [Js.startsWith].
      rewrite (Ascii.eqb_sym Js.LF d), Hd, andb_false_r.
      rewrite Hy. reflexivity.
Qed.

Lemma tl_app_not_nil {A} (ls ls' : list A) : ls <> [] -> tl (ls ++ ls') = tl ls ++ ls'.
Proof. destruct ls; [congruence | reflexivity]. Qed.

Lemma trimStart_not_blank (s : string) :
  isBlank s = false -> Js.trimStart s <> EmptyString.
Proof. intros H E. apply trimStart_empty_blank in E. congruence. Qed.

(** The entries of a text whose first line has ended. *)
Lemma parseCSV_after_header (t1 : string) :
  isBlank t1 = false ->
  exists body, forall y,
    parseCSV (t1 +:+ nl +:+ y) = body ++ flat_map entriesOfLine (Js.splitLines y).
Proof.
  intros H1.
  destruct (splitLines_app_nl (Js.trimStart t1)) as (ls & Hne & Hls).
  exists (flat_map entriesOfLine (tl ls)). intros y.
  rewrite parseCSV_lines, trimStart_app by (apply trimStart_not_blank, H1).
  rewrite Hls, tl_app_not_nil, flat_map_app by assumption. reflexivity.
Qed.

Lemma parseCSV_app_blank (text w : string) :
  isBlank w = true -> parseCSV (text +:+ w) = parseCSV text.
Proof. intros Hw. unfold parseCSV. rewrite (trim_app_blank text w Hw). reflexivity. Qed.

Lemma parseCSV_short_line (t1 line t2 : string) :
  isBlank t1 = false -> hasLF line = false ->
  (length (Js.splitFields line) < 5)%nat ->
  parseCSV (t1 +:+ nl +:+ line +:+ nl +:+ t2) = parseCSV (t1 +:+ nl +:+ t2).
Proof.
  intros H1 Hlf Hshort.
  destruct (parseCSV_after_header t1 H1) as (body & Hbody).
  destruct (splitLines_one_line line Hlf) as (l & w & E & Hw & Hy).
  rewrite !Hbody, Hy. simpl. f_equal.
  rewrite <- (entriesOfLine_app_blank l w Hw), <- E.
  rewrite (entriesOfLine_short line Hshort). reflexivity.
Qed.

Lemma parseCSV_blank_line (t1 t2 : string) :
  parseCSV (t1 +:+ nl +:+ nl +:+ t2) = parseCSV (t1 +:+ nl +:+ t2).
Proof.
  destruct (isBlank t1) eqn:H1.
  - rewrite !parseCSV_lines.
    rewrite (trimStart_app_blank t1 (nl +:+ nl +:+ t2) H1).
    rewrite (trimStart_app_blank t1 (nl +:+ t2) H1). reflexivity.
  - destruct (parseCSV_after_header t1 H1) as (body & Hbody).
    rewrite !Hbody. reflexivity.
Qed.

(** C6: a line with fewer than five fields and an empty line leave the
    array of entries as it is; at the level of the text, a line after the
    header with fewer than five fields can be removed, and a blank line
    inserted anywhere, without changing the result.  [parseCSV] is a total
    function on strings: it has a result for every text. *)
Theorem parseCSV_drops_short_and_blank_lines :
  (forall words line,
      (length (Js.splitFields line) < 5)%nat -> parseLine words line = words) /\
  (forall words, parseLine words EmptyString = words) /\
  (forall t1 line t2,
      isBlank t1 = false -> hasLF line = false ->
      (length (Js.splitFields line) < 5)%nat ->
      parseCSV (t1 +:+ nl +:+ line +:+ nl +:+ t2) = parseCSV (t1 +:+ nl +:+ t2) /\
      parseCSV (t1 +:+ nl +:+ line) = parseCSV t1) /\
  (forall t1 t2, parseCSV (t1 +:+ nl +:+ nl +:+ t2) = parseCSV (t1 +:+ nl +:+ t2)) /\
  parseCSV ("word,meaning,synonyms,antonyms,example" +:+ nl +:+ "cat,feline,kitty") = [].
Proof.
  split; [|split; [|split; [|split]]].
  - intros words line H.
    rewrite parseLine_acc, (entriesOfLine_short line H). apply app_nil_r.
  - reflexivity.
  - intros t1 line t2 H1 Hlf Hshort. split.
    + apply parseCSV_short_line; assumption.
    + rewrite <- (parseCSV_app_blank (t1 +:+ nl +:+ line) nl eq_refl).
      rewrite !app_assoc_str.
      rewrite <- (app_empty_r nl) at 2.
      rewrite (parseCSV_short_line t1 line EmptyString H1 Hlf Hshort).
      rewrite <- app_assoc_str, app_empty_r.
      apply (parseCSV_app_blank t1 nl eq_refl).
  - apply parseCSV_blank_line.
  - vm_compute. reflexivity.
Qed.

(** What a line without line feed contributes to the entries of a text,
    wherever it stands after the first line. *)
Lemma parseCSV_line_in_context (t1 line t2 : string) :
  isBlank t1 = false -> hasLF line = false ->
  parseCSV (t1 +:+ nl +:+ line +:+ nl +:+ t2)
  = parseCSV (t1 +:+ nl) ++ entriesOfLine line
      ++ flat_map entriesOfLine (Js.splitLines t2).
Proof.
  intros H1 Hlf.
  destruct (parseCSV_after_header t1 H1) as (body & Hbody).
  destruct (splitLines_one_line line Hlf) as (l & w & E & Hw & Hy).
  assert (Hb : parseCSV (t1 +:+ nl) = body).
  { rewrite <- (app_empty_r nl), Hbody. simpl. apply app_nil_r. }
  rewrite Hb, Hbody, Hy. simpl.
  rewrite <- (entriesOfLine_app_blank l w Hw), <- E. reflexivity.
Qed.

Lemma entriesOfLine_five (line w m synStr antStr ex : string) (rest : list string) :
  Js.splitFields line = w :: m :: synStr :: antStr :: ex :: rest ->
  entriesOfLine line =
    [ {| word := Js.trim w; meaning := Js.trim m;
         synonyms := Js.splitList synStr;
         antonyms := Js.splitList antStr;
         example := Js.trim ex |} ].
Proof.
  intros E. unfold entriesOfLine, parseLine. rewrite E.
  destruct line; [discriminate E|]. reflexivity.
Qed.

(** C9: when a line splits into five fields or more, the entry is
    built from the first five; whatever follows the fifth field is not
    looked at.  This holds for the loop body and for the line wherever it
    stands in a text after the first line. *)
Theorem parseLine_keeps_first_five :
  forall line w m synStr antStr ex rest,
    Js.splitFields line = w :: m :: synStr :: antStr :: ex :: rest ->
    let e := {| word := Js.trim w; meaning := Js.trim m;
                synonyms := Js.splitList synStr;
                antonyms := Js.splitList antStr;
                example := Js.trim ex |} in
    (forall words, parseLine words line = words ++ [e]) /\
    (forall t1 t2,
        isBlank t1 = false -> hasLF line = false ->
        parseCSV (t1 +:+ nl +:+ line +:+ nl +:+ t2)
        = parseCSV (t1 +:+ nl) ++ [e] ++ flat_map entriesOfLine (Js.splitLines t2)).
Proof.
  intros line w m synStr antStr ex rest E e.
  pose proof (entriesOfLine_five line w m synStr antStr ex rest E) as He.
  fold e in He. split.
  - intros words. rewrite parseLine_acc, He. reflexivity.
  - intros t1 t2 H1 Hlf.
    rewrite (parseCSV_line_in_context t1 line t2 H1 Hlf), He. reflexivity.
Qed.

(** ** The shuffle *)

Lemma swap_Permutation {A} (i j : nat) (l : list A) : Permutation (swap i j l) l.
Proof.
  unfold swap.
  destruct (l !! i) as [x|] eqn:Ei; [|reflexivity].
  destruct (l !! j) as [y|] eqn:Ej; [|reflexivity].
  apply Permutation_insert_swap; assumption.
Qed.

Lemma shuffleFrom_Permutation {A} (i : nat) :
  forall (l : list A) (r : Rng), Permutation (fst (shuffleFrom i l r)) l.
Proof.
  induction i as [|i IH]; intros l r; simpl; [reflexivity|].
  etransitivity; [apply IH | apply swap_Permutation].
Qed.

Lemma shuffleArray_Permutation {A} (l : list A) (r : Rng) :
  Permutation (fst (shuffleArray l r)) l.
Proof. apply shuffleFrom_Permutation. Qed.

Lemma occurrences_Permutation (text : string) (l l' : list string) :
  Permutation l l' -> occurrences text l = occurrences text l'.
Proof.
  unfold occurrences.
  induction 1 as [|x l l' _ IH|x y l|l l' l'' _ IH1 _ IH2]; simpl.
  - reflexivity.
  - destruct (sameText x text); simpl; congruence.
  - destruct (sameText x text), (sameText y text); reflexivity.
  - congruence.
Qed.

(** ** Distractors *)

Section Distractors.

Variable P : string -> Prop.

Lemma Forall_snoc (l : list string) (x : string) :
  Forall P l -> P x -> Forall P (l ++ [x]).
Proof. intros Hl Hx. apply Forall_app. split; [assumption | repeat constructor; assumption]. Qed.

Lemma newSet_Forall (xs : list string) :
  Forall P xs -> Forall P (newSet xs).
Proof.
  unfold newSet. intros Hxs.
  assert (Hnil : Forall P []) by constructor.
  revert Hnil Hxs. generalize (@nil string).
  induction xs as [|x xs IH]; intros acc Hacc Hxs; simpl; [assumption|].
  inversion Hxs; subst. apply IH; [|assumption].
  unfold setAdd. destruct (existsb _ acc); [assumption|].
  apply Forall_snoc; assumption.
Qed.

Lemma pickDistractors_Forall (e : WordEntry) (cands : list string) :
  forall acc, Forall P cands -> Forall P acc ->
              Forall P (pickDistractors e cands acc).
Proof.
  induction cands as [|c cands IH]; intros acc Hc Hacc;
    cbn [pickDistractors]; [assumption|].
  inversion Hc; subst.
  destruct (3 <=? length acc)%nat; [assumption|].
  destruct (negb _); apply IH; auto using Forall_snoc.
Qed.

Lemma fillFromWords_Forall (e : WordEntry) (correctText : string)
    (remaining : list WordEntry) :
  (forall w, sameText w correctText = false -> P w) ->
  forall acc, Forall P acc ->
              Forall P (fillFromWords e correctText remaining acc).
Proof.
  intros HP. induction remaining as [|o rest IH]; intros acc Hacc;
    cbn [fillFromWords]; [assumption|].
  destruct (length acc <? 3)%nat; [|assumption].
  destruct (negb (String.eqb (word o) (word e))); simpl; [|auto].
  destruct (sameText (word o) correctText) eqn:E; simpl; [auto|].
  apply IH. apply Forall_snoc; auto.
Qed.

End Distractors.

Lemma pickDistractors_length (e : WordEntry) (cands : list string) :
  forall acc, (length acc <= 3)%nat ->
              (length (pickDistractors e cands acc) <= 3)%nat.
Proof.
  induction cands as [|c cands IH]; intros acc Hacc;
    cbn [pickDistractors]; [assumption|].
  destruct (3 <=? length acc)%nat eqn:E; [assumption|].
  apply Nat.leb_gt in E.
  destruct (negb _); apply IH; [rewrite length_app; simpl|]; lia.
Qed.

Lemma fillFromWords_length (e : WordEntry) (correctText : string)
    (remaining : list WordEntry) :
  forall acc, (length acc <= 3)%nat ->
              (length (fillFromWords e correctText remaining acc) <= 3)%nat.
Proof.
  induction remaining as [|o rest IH]; intros acc Hacc;
    cbn [fillFromWords]; [assumption|].
  destruct (length acc <? 3)%nat eqn:E; [|assumption].
  apply Nat.ltb_lt in E.
  destruct (_ && _); apply IH; [rewrite length_app; simpl|]; lia.
Qed.

Lemma padDistractors_length (ds : list string) :
  (length ds <= 3)%nat -> length (padDistractors ds) = 3%nat.
Proof.
  intros H. unfold padDistractors. rewrite length_app, repeat_length. lia.
Qed.

Lemma toLowerCase_empty (s : string) :
  Js.toLowerCase s = EmptyString -> s = EmptyString.
Proof. destruct s; [reflexivity | discriminate]. Qed.

Lemma sameText_empty (text : string) :
  text <> EmptyString -> sameText EmptyString text = false.
Proof.
  intros H. unfold sameText. simpl.
  destruct (Js.toLowerCase text) eqn:E; [|reflexivity].
  apply toLowerCase_empty in E. congruence.
Qed.

Lemma occurrences_none (text : string) (l : list string) :
  Forall (fun d => sameText d text = false) l -> occurrences text l = 0%nat.
Proof.
  unfold occurrences. induction 1 as [|d l Hd _ IH]; simpl; [reflexivity|].
  rewrite Hd. exact IH.
Qed.

Lemma sameText_refl (text : string) : sameText text text = true.
Proof. apply String.eqb_refl. Qed.

(** The options before the final shuffle: the correct answer followed
    by three distractors, none of which reads like it unless it is an
    empty placeholder next to an empty correct answer. *)
Lemma optionsOf_spec (e : WordEntry) (cands : list string) (pool : list WordEntry) :
  Forall (fun d => sameText d (correctOf e) = false) cands ->
  length (optionsOf e cands pool) = 4%nat /\
  (correctOf e <> EmptyString ->
   occurrences (correctOf e) (optionsOf e cands pool) = 1%nat).
Proof.
  intros Hc. unfold optionsOf.
  set (ds := fillFromWords e (correctOf e) pool (pickDistractors e cands [])).
  assert (Hlen : (length ds <= 3)%nat).
  { apply fillFromWords_length, pickDistractors_length. simpl. lia. }
  assert (Hds : Forall (fun d => sameText d (correctOf e) = false) ds).
  { apply fillFromWords_Forall; [auto|].
    apply pickDistractors_Forall; [assumption | constructor]. }
  pose proof (padDistractors_length ds Hlen) as Hpad.
  split.
  - simpl. rewrite firstn_all2 by lia. lia.
  - intros Hne. rewrite firstn_all2 by lia.
    unfold occurrences. simpl. rewrite sameText_refl. simpl. f_equal.
    apply occurrences_none. unfold padDistractors.
    apply Forall_app. split; [assumption|].
    apply List.Forall_forall. intros d Hd. apply repeat_spec in Hd. subst d.
    apply sameText_empty, Hne.
Qed.

Lemma candidates_differ (e : WordEntry) (pool : list WordEntry) (r : Rng) :
  Forall (fun d => sameText d (correctOf e) = false)
    (fst (shuffleArray
            (newSet (List.filter
                       (fun c => Js.truthy c && negb (sameText c (correctOf e)))
                       (collectCandidates e pool))) r)).
Proof.
  eapply Permutation_Forall; [symmetry; apply shuffleArray_Permutation|].
  apply newSet_Forall. apply List.Forall_forall. intros d Hd.
  apply filter_In in Hd as [_ Hd].
  apply andb_true_iff in Hd as [_ Hd].
  apply negb_true_iff in Hd. exact Hd.
Qed.

(** C2, as the code has it: [generateOptions] returns four options for
    every entry, pool and run of the random source; when the correct
    answer of the entry is not the empty string, exactly one of the four
    reads like it, case ignored. *)
Theorem generateOptions_four_options :
  forall (e : WordEntry) (pool : list WordEntry) (r : Rng),
    length (fst (generateOptions e pool r)) = 4%nat /\
    (correctOf e <> EmptyString ->
     occurrences (correctOf e) (fst (generateOptions e pool r)) = 1%nat).
Proof.
  intros e pool r. unfold generateOptions.
  pose proof (candidates_differ e pool r) as Hc.
  destruct (shuffleArray _ r) as [cands r1]. simpl in Hc.
  destruct (optionsOf_spec e cands pool Hc) as [Hlen Hocc].
  pose proof (shuffleArray_Permutation (optionsOf e cands pool) r1) as Hp.
  split.
  - rewrite (Permutation_length Hp). exact Hlen.
  - intros Hne. rewrite (occurrences_Permutation _ _ _ Hp). auto.
Qed.

(** The options are four and hold the correct answer. *)
Lemma generateOptions_basic (e : WordEntry) (pool : list WordEntry) (r : Rng) :
  length (fst (generateOptions e pool r)) = 4%nat /\
  In (correctOf e) (fst (generateOptions e pool r)).
Proof.
  unfold generateOptions.
  pose proof (candidates_differ e pool r) as Hc.
  destruct (shuffleArray _ r) as [cands r1]. cbn [fst] in Hc.
  destruct (optionsOf_spec e cands pool Hc) as [Hlen _].
  pose proof (shuffleArray_Permutation (optionsOf e cands pool) r1) as Hp.
  split; [rewrite (Permutation_length Hp); exact Hlen|].
  apply (Permutation_in _ (Permutation_sym Hp)). left. reflexivity.
Qed.

(** ** The session *)

Lemma makeCards_length (pool drawn : list WordEntry) :
  forall r, length (fst (makeCards pool drawn r)) = length drawn.
Proof.
  induction drawn as [|e rest IH]; intros r; simpl; [reflexivity|].
  destruct (makeCard pool e r) as [card r1].
  specialize (IH r1). destruct (makeCards pool rest r1) as [cards r2].
  simpl in *. congruence.
Qed.

Lemma incorrectCount_snoc (rs : list Result.t) (r : Result.t) :
  incorrectCount (rs ++ [r])
  = (incorrectCount rs + (if Result.correct r then 0 else 1))%nat.
Proof.
  unfold incorrectCount. rewrite List.filter_app, length_app. simpl.
  destruct (Result.correct r); reflexivity.
Qed.

(** What one answer does to the results and to the queue. *)
Lemma handleOptionClick_effect (sel : string) (card : SessionCard) (s : Session) :
  let isCorrect := sameText sel (correct card) in
  let s2 := handleOptionClick sel card s in
  results s2 =
    results s ++ [ {| Result.word := word (entry card); Result.correct := isCorrect |} ] /\
  queue s2 =
    (if isCorrect then queue s
     else queue s ++
          [ {| entry := entry card;
               options :=
                 fst (generateOptions (entry card) (allWords s)
                        (snd (getMotivationalMessage isCorrect (rng s))));
               correct := correct card |} ]) /\
  optionsEnabled s2 = false /\ nextVisible s2 = true /\ finished s2 = finished s.
Proof.
  unfold handleOptionClick, requeuedCard. cbv zeta.
  destruct (getMotivationalMessage (sameText sel (correct card)) (rng s))
    as [text rng1].
  destruct (sameText sel (correct card)).
  - repeat split.
  - cbn [snd].
    destruct (generateOptions (entry card) (allWords s) rng1) as [opts r'].
    repeat split.
Qed.

(** What one answer does to the message and to the random source. *)
Lemma handleOptionClick_draws (sel : string) (card : SessionCard) (s : Session) :
  let isCorrect := sameText sel (correct card) in
  let drawn := getMotivationalMessage isCorrect (rng s) in
  let s2 := handleOptionClick sel card s in
  message s2 = fst drawn /\
  rng s2 =
    (if isCorrect then snd drawn
     else snd (generateOptions (entry card) (allWords s) (snd drawn))).
Proof.
  unfold handleOptionClick, requeuedCard. cbv zeta.
  destruct (getMotivationalMessage (sameText sel (correct card)) (rng s))
    as [text rng1].
  destruct (sameText sel (correct card)).
  - split; reflexivity.
  - cbn [fst snd].
    destruct (generateOptions (entry card) (allWords s) rng1) as [opts r'].
    split; reflexivity.
Qed.

Lemma handleOptionClick_inv n sel card (s : Session) :
  sessionInv n s -> optionsEnabled s = true ->
  sessionInv n (handleOptionClick sel card s).
Proof.
  intros (Hcount & Hopt & Hfin) Hen.
  destruct (handleOptionClick_effect sel card s) as (Hr & Hq & Ho & Hn & Hf).
  destruct (Hopt Hen) as [_ Hnf].
  unfold sessionInv, pendingCards in *.
  rewrite Hr, Hq, Ho, Hn, Hf, Hen in *. rewrite incorrectCount_snoc, length_app.
  simpl. split; [|split; [discriminate | congruence]].
  destruct (sameText sel (correct card)); [|rewrite length_app]; simpl; lia.
Qed.

Lemma showCard_inv n (s : Session) :
  sessionInv n s -> optionsEnabled s = false -> finished s = false ->
  sessionInv n (showCard s).
Proof.
  intros (Hcount & Hopt & Hfin) Hen Hnf.
  unfold sessionInv, pendingCards, showCard in *. rewrite Hen in Hcount.
  destruct (queue s) as [|card rest] eqn:Eq; simpl in *; rewrite ?Eq; simpl.
  - split; [lia|]. split; [discriminate | auto].
  - split; [lia|]. split; [auto | congruence].
Qed.

Lemma dispatch_inv n (s : Session) (ev : Event) :
  sessionInv n s -> sessionInv n (dispatch s ev).
Proof.
  intros Hinv. destruct ev as [sel|]; simpl.
  - destruct (currentCard s) as [card|]; [|assumption].
    destruct (optionsEnabled s) eqn:Hen; simpl; [|assumption].
    destruct (existsb (String.eqb sel) (options card)); [|assumption].
    apply handleOptionClick_inv; assumption.
  - destruct (nextVisible s) eqn:Hn; [|assumption].
    pose proof Hinv as (Hcount & Hopt & Hfin).
    apply showCard_inv; [assumption | |].
    + destruct (optionsEnabled s); [destruct (Hopt eq_refl); congruence | reflexivity].
    + destruct (finished s); [destruct (Hfin eq_refl); congruence | reflexivity].
Qed.

Lemma run_inv n (events : list Event) :
  forall s, sessionInv n s -> sessionInv n (run s events).
Proof.
  unfold run. induction events as [|ev events IH]; intros s Hinv; simpl; [assumption|].
  apply IH, dispatch_inv, Hinv.
Qed.

Lemma initFlashcards_inv st csv r s :
  initFlashcards st csv r = Some s ->
  sessionInv (Nat.min 10 (length (loadWords st csv))) s.
Proof.
  unfold initFlashcards.
  destruct (length (loadWords st csv) =? 0)%nat; [discriminate|].
  pose proof (shuffleArray_Permutation (loadWords st csv) r) as Hp.
  destruct (shuffleArray (loadWords st csv) r) as [entries r1]. simpl in Hp.
  pose proof (makeCards_length (loadWords st csv)
                (firstn (Nat.min 10 (length entries)) entries) r1) as Hlen.
  destruct (makeCards _ _ r1) as [session r2]. cbn [fst] in Hlen.
  intros [= <-]. apply showCard_inv; [|reflexivity|reflexivity].
  unfold sessionInv, pendingCards.
  cbn [results queue optionsEnabled nextVisible finished].
  rewrite Hlen, length_firstn, (Permutation_length Hp).
  unfold incorrectCount. cbn [List.filter length].
  split; [lia|]. split; discriminate.
Qed.

(** C3: in a session started by [initFlashcards] and driven by any
    sequence of clicks, the results, the card awaiting its answer and the
    queue together always count the drawn cards, min(10, pool size), plus
    the incorrect answers so far; so a finished session has an empty queue
    and as many results as drawn cards plus incorrect answers.  Each
    answer draws its message and appends one result.  A correct answer
    leaves the queue as it is.  An incorrect one puts one card at the
    back of the queue: a new card for the same entry and with the same
    stored answer, whose options [generateOptions] makes anew for the
    entry, from the random source as the message draw has left it, four of
    them.  That is what a click on an option of the card on display does
    while the options take clicks.  [showCard] finishes the session
    exactly when it finds the queue empty. *)
Theorem session_results_length :
  forall st csv r s events,
    initFlashcards st csv r = Some s ->
    let s' := run s events in
    let n := Nat.min 10 (length (loadWords st csv)) in
    (finished s' = true ->
       queue s' = [] /\
       length (results s') = (n + incorrectCount (results s'))%nat) /\
    (length (results s') + pendingCards s' = n + incorrectCount (results s'))%nat /\
    (finished s' = false -> (finished (showCard s') = true <-> queue s' = [])) /\
    (forall sel card,
       let isCorrect := sameText sel (correct card) in
       let drawn := getMotivationalMessage isCorrect (rng s') in
       let s2 := handleOptionClick sel card s' in
       results s2 =
         results s' ++
           [ {| Result.word := word (entry card); Result.correct := isCorrect |} ] /\
       message s2 = fst drawn /\
       (isCorrect = true -> queue s2 = queue s' /\ rng s2 = snd drawn) /\
       (isCorrect = false ->
          let fresh := generateOptions (entry card) (allWords s') (snd drawn) in
          queue s2 =
            queue s' ++
              [ {| entry := entry card; options := fst fresh;
                   correct := correct card |} ] /\
          length (fst fresh) = 4%nat /\
          rng s2 = snd fresh)) /\
    (forall sel card,
       currentCard s' = Some card -> optionsEnabled s' = true ->
       In sel (options card) ->
       dispatch s' (ClickOption sel) = handleOptionClick sel card s').
Proof.
  intros st csv r s events Hinit s' n.
  pose proof (run_inv n events s (initFlashcards_inv st csv r s Hinit)) as Hinv.
  fold s' in Hinv. destruct Hinv as (Hcount & Hopt & Hfin).
  split; [|split; [exact Hcount|split; [|split]]].
  - intros Hf. destruct (Hfin Hf) as [Hq _]. split; [assumption|].
    unfold pendingCards in Hcount. rewrite Hq in Hcount.
    destruct (optionsEnabled s'); [destruct (Hopt eq_refl); congruence|].
    simpl in Hcount. lia.
  - intros Hnf. unfold showCard. destruct (queue s') as [|c q]; simpl.
    + split; reflexivity.
    + rewrite Hnf. split; discriminate.
  - intros sel card isCorrect drawn s2.
    destruct (handleOptionClick_effect sel card s') as (Hr & Hq & _).
    destruct (handleOptionClick_draws sel card s') as (Hm & Hg).
    fold s2 isCorrect in Hr, Hq, Hm, Hg. fold drawn in Hq, Hm, Hg.
    split; [exact Hr|]. split; [exact Hm|].
    split; intros E; rewrite E in Hq, Hg.
    + split; [exact Hq | exact Hg].
    + cbv zeta. split; [exact Hq|]. split; [|exact Hg].
      apply generateOptions_basic.
  - intros sel card Hcur Hen Hin. cbn [dispatch]. rewrite Hcur, Hen.
    assert (Hex : existsb (String.eqb sel) (options card) = true).
    { apply existsb_exists. exists sel. split; [exact Hin | apply String.eqb_refl]. }
    rewrite Hex. reflexivity.
Qed.

(** ** The progress store *)

Lemma ensureUser_present u (p : gmap string (gmap string Counter.t)) :
  is_Some (p !! u) -> ensureUser u p = p.
Proof. intros [m E]. unfold ensureUser. rewrite E. reflexivity. Qed.

Lemma ensureUser_is_Some u (p : gmap string (gmap string Counter.t)) :
  Js.inheritedName u = false -> is_Some (ensureUser u p !! u).
Proof.
  intros Hu. unfold ensureUser. destruct (p !! u) eqn:E.
  - rewrite E. eauto.
  - rewrite Hu, lookup_insert_eq. eauto.
Qed.

(** After [ensureUser], only a user with an inherited name is without an
    entry. *)
Lemma ensureUser_settled u (p : gmap string (gmap string Counter.t)) :
  ensureUser u p !! u = None -> Js.inheritedName u = true.
Proof.
  unfold ensureUser. destruct (p !! u) eqn:E.
  - rewrite E. discriminate.
  - destruct (Js.inheritedName u); [reflexivity|].
    rewrite lookup_insert_eq. discriminate.
Qed.

Lemma ensureUser_idem u (p : gmap string (gmap string Counter.t)) :
  ensureUser u (ensureUser u p) = ensureUser u p.
Proof.
  destruct (ensureUser u p !! u) as [user|] eqn:E.
  - apply ensureUser_present. rewrite E. eauto.
  - unfold ensureUser at 1. rewrite E, (ensureUser_settled u p E). reflexivity.
Qed.

Lemma ensureUser_counterOf u (p : gmap string (gmap string Counter.t)) u' w :
  counterOf (ensureUser u p) u' w = counterOf p u' w.
Proof.
  unfold ensureUser, counterOf. destruct (p !! u) eqn:E; [reflexivity|].
  destruct (Js.inheritedName u); [reflexivity|].
  destruct (decide (u = u')) as [<-|Hne].
  - rewrite lookup_insert_eq, E. apply lookup_empty.
  - rewrite lookup_insert_ne by assumption. reflexivity.
Qed.

Lemma ensureUser_other u (p : gmap string (gmap string Counter.t)) u' :
  u' <> u -> ensureUser u p !! u' = p !! u'.
Proof.
  intros Hne. unfold ensureUser. destruct (p !! u); [reflexivity|].
  destruct (Js.inheritedName u); [reflexivity|].
  apply lookup_insert_ne. congruence.
Qed.

Lemma ensureUser_counts u (p : gmap string (gmap string Counter.t)) w :
  counts (ensureUser u p) u w = counts p u w.
Proof.
  unfold counts, ensureUser. destruct (p !! u) eqn:E.
  - rewrite E. reflexivity.
  - destruct (Js.inheritedName u) eqn:Hu; cbv iota.
    + rewrite E. reflexivity.
    + rewrite lookup_insert_eq, lookup_empty. reflexivity.
Qed.

Lemma recordResult_none u (p : gmap string (gmap string Counter.t)) res :
  p !! u = None -> recordResult u p res = p.
Proof. intros E. unfold recordResult. rewrite E. reflexivity. Qed.

Lemma recordResult_is_Some u (p : gmap string (gmap string Counter.t)) res :
  is_Some (p !! u) -> is_Some (recordResult u p res !! u).
Proof.
  intros [user E]. unfold recordResult. rewrite E.
  destruct (user !! Result.word res); [|destruct (Js.inheritedName (Result.word res))];
    rewrite ?lookup_insert_eq, ?E; eauto.
Qed.

Lemma recordResult_settled u (p : gmap string (gmap string Counter.t)) res :
  (p !! u = None -> Js.inheritedName u = true) ->
  recordResult u p res !! u = None -> Js.inheritedName u = true.
Proof.
  intros Hp Hr. destruct (p !! u) as [user|] eqn:E; [|apply Hp; reflexivity].
  destruct (recordResult_is_Some u p res) as [x Hx]; [rewrite E; eauto|].
  congruence.
Qed.

Lemma recordResult_other u (p : gmap string (gmap string Counter.t)) res u' :
  u' <> u -> recordResult u p res !! u' = p !! u'.
Proof.
  intros Hne. unfold recordResult. destruct (p !! u) as [user|]; [|reflexivity].
  destruct (user !! Result.word res); [|destruct (Js.inheritedName (Result.word res))];
    try reflexivity; apply lookup_insert_ne; congruence.
Qed.

Lemma recordResult_counts u (p : gmap string (gmap string Counter.t)) res w :
  counts (recordResult u p res) u w = counts p u w.
Proof.
  unfold recordResult, counts. destruct (p !! u) as [user|] eqn:E; [|rewrite E; reflexivity].
  destruct (user !! Result.word res) as [c|] eqn:F.
  - rewrite lookup_insert_eq.
    destruct (decide (Result.word res = w)) as [<-|Hne].
    + rewrite lookup_insert_eq, F. reflexivity.
    + rewrite lookup_insert_ne by assumption. reflexivity.
  - destruct (Js.inheritedName (Result.word res)) eqn:Hw; [rewrite E; reflexivity|].
    rewrite lookup_insert_eq.
    destruct (decide (Result.word res = w)) as [<-|Hne].
    + rewrite lookup_insert_eq, F, Hw. reflexivity.
    + rewrite lookup_insert_ne by assumption. reflexivity.
Qed.

(** The counters of the user after one result. *)
Lemma recordResult_counterOf u (p : gmap string (gmap string Counter.t)) res w :
  (p !! u = None -> Js.inheritedName u = true) ->
  counterOf (recordResult u p res) u w =
    if String.eqb (Result.word res) w
    then match counterOf p u w with
         | Some c => Some (bump res c)
         | None => if counts p u w then Some (bump res Counter.zero) else None
         end
    else counterOf p u w.
Proof.
  intros Hp. unfold recordResult, counterOf, counts.
  destruct (p !! u) as [user|] eqn:E.
  - destruct (String.eqb_spec (Result.word res) w) as [<-|Hne].
    + destruct (user !! Result.word res) as [c|] eqn:F.
      * rewrite !lookup_insert_eq. reflexivity.
      * destruct (Js.inheritedName (Result.word res)); cbn [negb].
        -- rewrite E, F. reflexivity.
        -- rewrite !lookup_insert_eq. reflexivity.
    + destruct (user !! Result.word res) as [c|] eqn:F.
      * rewrite lookup_insert_eq, lookup_insert_ne by assumption. reflexivity.
      * destruct (Js.inheritedName (Result.word res)).
        -- rewrite E. reflexivity.
        -- rewrite lookup_insert_eq, lookup_insert_ne by assumption. reflexivity.
  - rewrite E, (Hp eq_refl). destruct (String.eqb (Result.word res) w); reflexivity.
Qed.

Lemma fold_recordResult_none u (rs : list Result.t) :
  forall p : gmap string (gmap string Counter.t),
    p !! u = None -> fold_left (recordResult u) rs p = p.
Proof.
  induction rs as [|r rs IH]; intros p Hp; simpl; [reflexivity|].
  rewrite (recordResult_none u p r Hp). apply IH, Hp.
Qed.

Lemma fold_recordResult_is_Some u (rs : list Result.t) :
  forall p : gmap string (gmap string Counter.t),
    is_Some (p !! u) -> is_Some (fold_left (recordResult u) rs p !! u).
Proof.
  induction rs as [|r rs IH]; intros p Hp; simpl; [assumption|].
  apply IH, recordResult_is_Some, Hp.
Qed.

Lemma fold_recordResult_other u (rs : list Result.t) u' :
  u' <> u ->
  forall p : gmap string (gmap string Counter.t),
    fold_left (recordResult u) rs p !! u' = p !! u'.
Proof.
  intros Hne. induction rs as [|r rs IH]; intros p; simpl; [reflexivity|].
  rewrite IH. apply recordResult_other, Hne.
Qed.

Lemma counterOf_other (p q : gmap string (gmap string Counter.t)) u w :
  q !! u = p !! u -> counterOf q u w = counterOf p u w.
Proof. intros E. unfold counterOf. rewrite E. reflexivity. Qed.

Lemma timesAnswered_cons (w : string) (r : Result.t) (rs : list Result.t) :
  timesAnswered w (r :: rs)
  = ((if String.eqb (Result.word r) w then 1 else 0) + timesAnswered w rs)%Z.
Proof.
  unfold timesAnswered. cbn [List.filter].
  destruct (String.eqb (Result.word r) w); cbn [length]; lia.
Qed.

Lemma timesCorrect_cons (w : string) (r : Result.t) (rs : list Result.t) :
  timesCorrect w (r :: rs)
  = ((if String.eqb (Result.word r) w && Result.correct r then 1 else 0)
     + timesCorrect w rs)%Z.
Proof.
  unfold timesCorrect. cbn [List.filter].
  destruct (String.eqb (Result.word r) w && Result.correct r); cbn [length]; lia.
Qed.

Lemma times_bounds (w : string) (rs : list Result.t) :
  (0 <= timesCorrect w rs <= timesAnswered w rs)%Z.
Proof.
  unfold timesCorrect, timesAnswered. split; [lia|].
  apply Nat2Z.inj_le.
  induction rs as [|r rs IH]; simpl; [lia|].
  destruct (String.eqb (Result.word r) w); simpl; [|assumption].
  destruct (Result.correct r); simpl; lia.
Qed.


Lemma timesAnswered_In (r : Result.t) (rs : list Result.t) :
  In r rs -> (0 < timesAnswered (Result.word r) rs)%Z.
Proof.
  induction rs as [|r' rs IH]; intros Hin; [destruct Hin|].
  rewrite timesAnswered_cons. pose proof (times_bounds (Result.word r) rs).
  destruct Hin as [->|Hin].
  - rewrite String.eqb_refl. lia.
  - specialize (IH Hin). destruct (String.eqb (Result.word r') (Result.word r)); lia.
Qed.

Lemma grown_nil (c : Counter.t) (w : string) : grown c w [] = c.
Proof.
  destruct c as [a k]. unfold grown, timesAnswered, timesCorrect.
  cbn [List.filter length Counter.attempts Counter.correct]. f_equal; lia.
Qed.

Lemma grown_cons (c : Counter.t) (r : Result.t) (rs : list Result.t) :
  grown (bump r c) (Result.word r) rs = grown c (Result.word r) (r :: rs).
Proof.
  unfold grown, bump. rewrite timesAnswered_cons, timesCorrect_cons, String.eqb_refl.
  cbn [Counter.attempts Counter.correct andb].
  destruct (Result.correct r); f_equal; lia.
Qed.

Lemma grown_skip (c : Counter.t) (w : string) (r : Result.t) (rs : list Result.t) :
  String.eqb (Result.word r) w = false -> grown c w (r :: rs) = grown c w rs.
Proof.
  intros E. unfold grown. rewrite timesAnswered_cons, timesCorrect_cons, E.
  cbn [andb]. f_equal; lia.
Qed.

(** The counters of the user after a run of results. *)
Lemma fold_recordResult_counterOf u w (rs : list Result.t) :
  forall p : gmap string (gmap string Counter.t),
    (p !! u = None -> Js.inheritedName u = true) ->
    counterOf (fold_left (recordResult u) rs p) u w =
      match counterOf p u w with
      | Some c => Some (grown c w rs)
      | None =>
          if (0 <? timesAnswered w rs)%Z && counts p u w
          then Some (grown Counter.zero w rs)
          else None
      end.
Proof.
  induction rs as [|r rs IH]; intros p Hp.
  - cbn [fold_left]. destruct (counterOf p u w) as [c|]; [|reflexivity].
    rewrite grown_nil. reflexivity.
  - cbn [fold_left].
    rewrite (IH (recordResult u p r) (recordResult_settled u p r Hp)).
    rewrite recordResult_counterOf, recordResult_counts by exact Hp.
    pose proof (times_bounds w rs) as Hb.
    destruct (String.eqb_spec (Result.word r) w) as [<-|Hne].
    + rewrite timesAnswered_cons, String.eqb_refl.
      destruct (counterOf p u (Result.word r)) as [c|].
      * rewrite grown_cons. reflexivity.
      * destruct (counts p u (Result.word r)).
        -- rewrite grown_cons.
           replace (0 <? 1 + timesAnswered (Result.word r) rs)%Z with true
             by (symmetry; apply Z.ltb_lt; lia).
           reflexivity.
        -- rewrite !andb_false_r. reflexivity.
    + apply String.eqb_neq in Hne.
      rewrite timesAnswered_cons, Hne, Z.add_0_l.
      destruct (counterOf p u w) as [c|]; rewrite (grown_skip _ w r rs Hne); reflexivity.
Qed.

(** C4: two calls of [updateProgress] for one user, one after the
    other, leave the store as one call with the two result lists
    appended does. *)
Theorem updateProgress_append :
  forall (u : string) (r1 r2 : list Result.t) (st : Storage),
    updateProgress u r2 (updateProgress u r1 st) = updateProgress u (r1 ++ r2) st.
Proof.
  intros u r1 r2 st. unfold updateProgress.
  destruct (negb (Js.truthy u)); [reflexivity|].
  cbn [item_progress item_username item_words].
  rewrite fold_left_app. do 3 f_equal.
  change (readProgress _) with
    (fold_left (recordResult u) r1 (ensureUser u (readProgress st))) at 1.
  f_equal.
  destruct (ensureUser u (readProgress st) !! u) as [user|] eqn:E.
  - apply ensureUser_present, fold_recordResult_is_Some. rewrite E. eauto.
  - rewrite (fold_recordResult_none u r1 _ E). apply ensureUser_idem.
Qed.

Lemma updateProgress_read (u : string) (rs : list Result.t) (st : Storage) :
  Js.truthy u = true ->
  readProgress (updateProgress u rs st)
  = fold_left (recordResult u) rs (ensureUser u (readProgress st)).
Proof. intros H. unfold updateProgress. rewrite H. reflexivity. Qed.

Lemma truthy_iff (s : string) : Js.truthy s = true <-> s <> EmptyString.
Proof. destruct s; simpl; split; congruence. Qed.

(** The counters of the user after [updateProgress]. *)
Lemma updateProgress_counterOf (u : string) (rs : list Result.t) (st : Storage) w :
  Js.truthy u = true ->
  counterOf (readProgress (updateProgress u rs st)) u w =
    match counterOf (readProgress st) u w with
    | Some c => Some (grown c w rs)
    | None =>
        if (0 <? timesAnswered w rs)%Z && counts (readProgress st) u w
        then Some (grown Counter.zero w rs)
        else None
    end.
Proof.
  intros H. rewrite (updateProgress_read u rs st H).
  rewrite fold_recordResult_counterOf by apply ensureUser_settled.
  rewrite ensureUser_counterOf, ensureUser_counts. reflexivity.
Qed.

Lemma updateProgress_other_user (u : string) (rs : list Result.t) (st : Storage) u' :
  u' <> u ->
  readProgress (updateProgress u rs st) !! u' = readProgress st !! u'.
Proof.
  intros Hne. destruct (Js.truthy u) eqn:H.
  - rewrite (updateProgress_read u rs st H), fold_recordResult_other by assumption.
    apply ensureUser_other, Hne.
  - destruct u; [reflexivity | discriminate].
Qed.




(** ** The upload *)

(** C8: an uploaded text without a valid entry is answered with an
    alert and the store stays as it is; otherwise the words key holds
    the parsed entries, all of them and nothing else, and the other keys
    stay as they are. *)
Theorem uploadCsv_replaces_or_rejects :
  forall (text : string) (st : Storage),
    (parseCSV text = [] ->
       uploadCsv (Some text) st = (st, Alert "No entries found in the CSV file.")) /\
    (parseCSV text <> [] ->
       let st' := fst (uploadCsv (Some text) st) in
       item_words st' = Some (Json (parseCSV text)) /\
       item_username st' = item_username st /\
       item_progress st' = item_progress st /\
       snd (uploadCsv (Some text) st) = Uploaded (length (parseCSV text))).
Proof.
  intros text st. unfold uploadCsv.
  destruct (parseCSV text) as [|e es] eqn:E; simpl.
  - split; [auto | congruence].
  - split; [discriminate | auto].
Qed.

(** ** Accuracy *)

(** C7, the code at 23 correct answers out of 40 attempts. The
    percentage is exactly 57.5, which rounds to 58; the figure of the code
    is 57, in the summary of both dashboards and in the row of the word.
    [Math.round] takes 57.5 to 58: it is the quotient 23/40 that is
    rounded to binary64 before it is multiplied by 100, and the product
    comes out below 57.5, while [100 * 23 / 40] is 57.5 in the same
    arithmetic. The guard is there: without attempts the figure is 0, and
    7 correct answers out of 10 give 70. *)
Theorem accuracy_below_rounded_percentage :
  (2 * (100 * 23) = (2 * 57 + 1) * 40)%Z /\
  exactPercent 23 40 = 58%Z /\
  accuracy 23 40 = 57%Z /\
  renderDashboard pastStore
  = DashTable {| wordCount := 1; sumAttempts := 40; sumCorrect := 23;
                 accuracyPercent := 57 |}
      [("cat", 40, 23, 57)%Z] /\
  renderAdminProgress pastStore
  = AdminTable [("Ann", {| wordCount := 1; sumAttempts := 40; sumCorrect := 23;
                           accuracyPercent := 57 |})] /\
  mathRound (PrimFloat.div (toNumber 115) (toNumber 2)) = 58%Z /\
  PrimFloat.ltb
    (PrimFloat.mul (PrimFloat.div (toNumber 23) (toNumber 40)) (toNumber 100))
    (PrimFloat.div (toNumber 115) (toNumber 2)) = true /\
  mathRound (PrimFloat.div (PrimFloat.mul (toNumber 100) (toNumber 23)) (toNumber 40))
  = 58%Z /\
  (forall c, accuracy c 0 = 0%Z) /\
  accuracy 7 10 = 70%Z.
Proof.
  split; [reflexivity|]. split; [reflexivity|].
  split; [vm_compute; reflexivity|]. split; [vm_compute; reflexivity|].
  split; [vm_compute; reflexivity|]. split; [vm_compute; reflexivity|].
  split; [vm_compute; reflexivity|]. split; [vm_compute; reflexivity|].
  split; [reflexivity | vm_compute; reflexivity].
Qed.

(** ** The answer stored on a card *)

(** Where the entry has a first synonym, the card and the options agree
    on the correct answer. *)
Lemma cardCorrect_with_synonym (e : WordEntry) :
  Js.truthy (hd EmptyString (synonyms e)) = true -> cardCorrect e = correctOf e.
Proof. intros H. unfold cardCorrect, correctOf, Js.or_else. rewrite H. reflexivity. Qed.

(** C1, the code at an entry without synonyms: the row parses to
    [lonelyEntry]; [generateOptions] takes "feline", the first word of
    the meaning, for the correct answer and puts it among the options;
    the card drawn by [initFlashcards] stores "cat", the word itself, and
    no option of the card reads like it.  Choosing "feline" is recorded
    as an incorrect answer and the card comes back. *)
Theorem card_correct_ignores_meaning :
  parseCSV (header +:+ nl +:+ "cat,feline animal,,dog,A cat sat.") = [lonelyEntry] /\
  correctOf lonelyEntry = "feline" /\
  cardCorrect lonelyEntry = "cat" /\
  option_map
    (fun s => option_map (fun card => (correct card, options card)) (currentCard s))
    (initFlashcards lonelyStore None [])
  = Some (Some ("cat", [EmptyString; EmptyString; EmptyString; "feline"])) /\
  occurrences "cat" [EmptyString; EmptyString; EmptyString; "feline"] = 0%nat /\
  option_map
    (fun s => let s' := run s [ClickOption "feline"; ClickNext] in
              (results s', option_map correct (currentCard s'), finished s'))
    (initFlashcards lonelyStore None [])
  = Some ([ {| Result.word := "cat"; Result.correct := false |} ],
          Some "cat", false).
Proof. repeat split; vm_compute; reflexivity. Qed.

(** ** Instances *)

Lemma generateOptions_four_options_witness :
  correctOf catEntry <> EmptyString /\
  occurrences (correctOf catEntry)
    (fst (generateOptions catEntry [catEntry; dogEntry] [3; 1; 4; 1; 5]%nat)) = 1%nat.
Proof.
  split; [discriminate|].
  apply (proj2 (generateOptions_four_options catEntry [catEntry; dogEntry]
                  [3; 1; 4; 1; 5]%nat)).
  discriminate.
Defined.

(** C2 as stated fails for the entry the line [,,,,] parses to: its
    correct answer is the empty string, and in a pool of its own all
    three distractors are empty placeholders, so the correct answer
    occurs four times. *)
Lemma generateOptions_blank_counterexample :
  parseCSV (header +:+ nl +:+ ",,,,") = [blankEntry] /\
  In blankEntry [blankEntry] /\
  fst (generateOptions blankEntry [blankEntry] []) = repeat EmptyString 4 /\
  occurrences (correctOf blankEntry)
    (fst (generateOptions blankEntry [blankEntry] [])) = 4%nat /\
  ~ (length (fst (generateOptions blankEntry [blankEntry] [])) = 4%nat /\
     occurrences (correctOf blankEntry)
       (fst (generateOptions blankEntry [blankEntry] [])) = 1%nat).
Proof.
  split; [vm_compute; reflexivity|].
  split; [left; reflexivity|].
  split; [vm_compute; reflexivity|].
  split; [vm_compute; reflexivity|].
  intros [_ H]. vm_compute in H. discriminate.
Defined.

Lemma session_results_length_witness :
  (exists s,
      initFlashcards demoStore None [] = Some s /\
      finished (run s demoEvents) = true /\
      incorrectCount (results (run s demoEvents)) = 1%nat /\
      queue (run s demoEvents) = [] /\
      length (results (run s demoEvents))
      = (Nat.min 10 (length (loadWords demoStore None))
         + incorrectCount (results (run s demoEvents)))%nat) /\
  (exists s card,
      initFlashcards demoStore None demoDraws = Some s /\
      currentCard s = Some card /\
      options card = ["kitty"; "pooch"; "hound"; "dog"] /\
      sameText "dog" (correct card) = false /\
      queue (handleOptionClick "dog" card s)
      = queue s ++ [ {| entry := catEntry;
                        options := ["kitty"; "dog"; "hound"; "pooch"];
                        correct := "kitty" |} ] /\
      message (handleOptionClick "dog" card s) = "Not quite. You can do it!" /\
      rng (handleOptionClick "dog" card s) = [0; 2; 3; 1; 5; 2; 1; 0; 3]%nat).
Proof.
  split.
  - eexists. split; [vm_compute; reflexivity|].
    split; [vm_compute; reflexivity|].
    split; [vm_compute; reflexivity|].
    apply (proj1 (session_results_length demoStore None [] _ demoEvents eq_refl)).
    vm_compute. reflexivity.
  - eexists. eexists. split; [vm_compute; reflexivity|].
    split; [vm_compute; reflexivity|].
    split; [reflexivity|]. split; [vm_compute; reflexivity|].
    destruct (session_results_length demoStore None demoDraws _ [] eq_refl)
      as (_ & _ & _ & Hclick & _).
    destruct (Hclick "dog"
                {| entry := catEntry; options := ["kitty"; "pooch"; "hound"; "dog"];
                   correct := "kitty" |})
      as (_ & Hmsg & _ & Hwrong).
    destruct (Hwrong eq_refl) as (Hq & _ & Hrng).
    split; [etransitivity; [exact Hq | vm_compute; reflexivity]|].
    split; [etransitivity; [exact Hmsg | vm_compute; reflexivity]|].
    etransitivity; [exact Hrng | vm_compute; reflexivity].
Defined.

Lemma parseCSV_drops_short_and_blank_lines_witness :
  isBlank header = false /\
  hasLF "cat,feline,kitty" = false /\
  (length (Js.splitFields "cat,feline,kitty") < 5)%nat /\
  parseCSV (header +:+ nl +:+ "cat,feline,kitty" +:+ nl +:+
            "dog,canine,hound;pooch,cat,A dog ran.")
  = parseCSV (header +:+ nl +:+ "dog,canine,hound;pooch,cat,A dog ran.").
Proof.
  split; [reflexivity|]. split; [reflexivity|]. split; [simpl; lia|].
  destruct parseCSV_drops_short_and_blank_lines as (_ & _ & H & _).
  apply (H header "cat,feline,kitty" "dog,canine,hound;pooch,cat,A dog ran.").
  - reflexivity.
  - reflexivity.
  - simpl. lia.
Defined.

Lemma uploadCsv_replaces_or_rejects_witness :
  parseCSV EmptyString = [] /\
  uploadCsv (Some EmptyString) demoStore
  = (demoStore, Alert "No entries found in the CSV file.") /\
  parseCSV sampleCsv <> [] /\
  item_words (fst (uploadCsv (Some sampleCsv) demoStore))
  = Some (Json (parseCSV sampleCsv)).
Proof.
  split; [reflexivity|].
  split; [apply (proj1 (uploadCsv_replaces_or_rejects EmptyString demoStore)); reflexivity|].
  split; [vm_compute; discriminate|].
  apply (proj2 (uploadCsv_replaces_or_rejects sampleCsv demoStore)).
  vm_compute. discriminate.
Defined.

Lemma parseLine_keeps_first_five_witness :
  Js.splitFields "cat,feline,kitty;tomcat,dog,A cat sat, then it left,really"
  = ["cat"; "feline"; "kitty;tomcat"; "dog"; "A cat sat"; " then it left"; "really"] /\
  parseLine [dogEntry] "cat,feline,kitty;tomcat,dog,A cat sat, then it left,really"
  = [ dogEntry;
      {| word := "cat"; meaning := "feline";
         synonyms := ["kitty"; "tomcat"]; antonyms := ["dog"];
         example := "A cat sat" |} ].
Proof.
  split; [reflexivity|].
  apply (proj1 (parseLine_keeps_first_five
                  "cat,feline,kitty;tomcat,dog,A cat sat, then it left,really"
                  "cat" "feline" "kitty;tomcat" "dog" "A cat sat"
                  [" then it left"; "really"] eq_refl)).
Defined.


(** * Further properties *)

(** ** The shuffle and the random source *)

Lemma shuffleFrom_rng {A} (i : nat) :
  forall (l : list A) (r : Rng), snd (shuffleFrom i l r) = drop i r.
Proof.
  induction i as [|i IH]; intros l r; simpl; [reflexivity|].
  rewrite IH. destruct r; [apply drop_nil | reflexivity].
Qed.

(** X1: [shuffleArray] returns the elements it was given, each as often
    as before, so also as many; it draws from the random source once for
    every index from the last down to 1, that is [length - 1] times, and
    not at all for an array of at most one element, which it returns as
    it is. *)
Theorem shuffleArray_permutes_and_draws :
  forall (A : Type) (array : list A) (r : Rng),
    Permutation (fst (shuffleArray array r)) array /\
    length (fst (shuffleArray array r)) = length array /\
    snd (shuffleArray array r) = drop (length array - 1) r /\
    ((length array <= 1)%nat -> shuffleArray array r = (array, r)).
Proof.
  intros A array r.
  pose proof (shuffleArray_Permutation array r) as Hp.
  split; [exact Hp|]. split; [exact (Permutation_length Hp)|].
  split; [apply shuffleFrom_rng|].
  intros Hlen. unfold shuffleArray.
  replace (length array - 1)%nat with 0%nat by lia. reflexivity.
Qed.

Lemma shuffleArray_permutes_and_draws_witness :
  (length [catEntry] <= 1)%nat /\
  shuffleArray [catEntry] [7; 8; 9]%nat = ([catEntry], [7; 8; 9]%nat).
Proof.
  split; [simpl; lia|].
  apply (proj2 (proj2 (proj2 (shuffleArray_permutes_and_draws
                                WordEntry [catEntry] [7; 8; 9]%nat)))).
  simpl. lia.
Defined.

(** ** More on the parser *)

Lemma trimEnd_String c (s : string) :
  Js.trimEnd (String c s) =
    match Js.trimEnd s with
    | EmptyString => if Js.isWhiteSpace c then EmptyString else String c EmptyString
    | r => String c r
    end.
Proof. reflexivity. Qed.

Lemma trimEnd_idempotent (s : string) : Js.trimEnd (Js.trimEnd s) = Js.trimEnd s.
Proof.
  induction s as [|c s IH]; [reflexivity|].
  rewrite trimEnd_String. destruct (Js.trimEnd s) as [|d r] eqn:E.
  - destruct (Js.isWhiteSpace c) eqn:Hc; [reflexivity|].
    rewrite trimEnd_String. simpl. rewrite Hc. reflexivity.
  - rewrite trimEnd_String, IH. reflexivity.
Qed.

Lemma trimStart_trimEnd (s : string) :
  Js.trimStart s = s -> Js.trimStart (Js.trimEnd s) = Js.trimEnd s.
Proof.
  destruct s as [|c s]; [reflexivity|].
  cbn [Js.trimStart]. destruct (Js.isWhiteSpace c) eqn:Hc.
  - intros E. exfalso.
    assert (Hlen : (String.length (Js.trimStart s) <= String.length s)%nat).
    { clear. induction s as [|d s IH]; simpl; [lia|].
      destruct (Js.isWhiteSpace d); simpl; lia. }
    rewrite E in Hlen. simpl in Hlen. lia.
  - intros _. rewrite trimEnd_String.
    destruct (Js.trimEnd s); rewrite ?Hc; cbn [Js.trimStart]; rewrite Hc; reflexivity.
Qed.

Lemma trimStart_idempotent (s : string) :
  Js.trimStart (Js.trimStart s) = Js.trimStart s.
Proof.
  induction s as [|c s IH]; [reflexivity|].
  cbn [Js.trimStart]. destruct (Js.isWhiteSpace c) eqn:Hc; [exact IH|].
  cbn [Js.trimStart]. rewrite Hc. reflexivity.
Qed.

Lemma trim_idempotent (s : string) : Js.trim (Js.trim s) = Js.trim s.
Proof.
  unfold Js.trim.
  rewrite (trimStart_trimEnd (Js.trimStart s) (trimStart_idempotent s)).
  apply trimEnd_idempotent.
Qed.

(** X2: white space around the text, blank lines before the first line
    and after the last one included, does not count: the first line that
    is not blank is the header. *)
Theorem parseCSV_ignores_surrounding_space :
  forall w1 text w2 : string,
    isBlank w1 = true -> isBlank w2 = true ->
    parseCSV (w1 +:+ text +:+ w2) = parseCSV text.
Proof.
  intros w1 text w2 H1 H2. unfold parseCSV, Js.trim.
  rewrite (trimStart_app_blank w1 (text +:+ w2) H1).
  fold (Js.trim (text +:+ w2)). rewrite (trim_app_blank text w2 H2).
  reflexivity.
Qed.

Lemma parseCSV_ignores_surrounding_space_witness :
  isBlank (nl +:+ "  ") = true /\ isBlank (nl +:+ nl) = true /\
  parseCSV ((nl +:+ "  ") +:+ sampleCsv +:+ (nl +:+ nl)) = parseCSV sampleCsv.
Proof.
  split; [reflexivity|]. split; [reflexivity|].
  apply (parseCSV_ignores_surrounding_space (nl +:+ "  ") sampleCsv (nl +:+ nl));
    reflexivity.
Defined.

Lemma splitFields_through_quote (l r : string) :
  exists f fs,
    Js.splitFields r = f :: fs /\
    Js.splitFields (l +:+ String quote r) = (l +:+ String quote f) :: fs.
Proof.
  destruct (Js.splitFields r) as [|f fs] eqn:E;
    [destruct (splitFields_not_nil r E)|].
  exists f, fs. split; [reflexivity|].
  induction l as [|c l IH].
  - rewrite app_empty_l. cbn [Js.splitFields]. rewrite E. reflexivity.
  - rewrite app_String. cbn [Js.splitFields].
    rewrite hasQuote_app. cbn [Js.hasQuote]. unfold quote at 1.
    rewrite Ascii.eqb_refl, orb_true_r, andb_false_r. rewrite IH. reflexivity.
Qed.

(** X3: a double quote glues everything before it to the field it is
    in: no comma before the last double quote of a line separates fields,
    and the fields of the line are those of the part after that quote,
    the first one with everything up to the quote in front.  So a line
    with fewer than four separating commas after a double quote, a line
    whose fifth column is quoted for one, yields no entry. *)
Theorem splitFields_quote_glues :
  forall l r : string,
    (exists f fs,
        Js.splitFields r = f :: fs /\
        Js.splitFields (l +:+ String quote r) = (l +:+ String quote f) :: fs) /\
    ((length (Js.splitFields r) < 5)%nat ->
     forall words, parseLine words (l +:+ String quote r) = words).
Proof.
  intros l r. split; [apply splitFields_through_quote|].
  intros Hshort words.
  destruct (splitFields_through_quote l r) as (f & fs & E1 & E2).
  rewrite parseLine_acc, entriesOfLine_short; [apply app_nil_r|].
  rewrite E2. rewrite E1 in Hshort. exact Hshort.
Qed.

Lemma splitFields_quote_glues_witness :
  (length (Js.splitFields EmptyString) < 5)%nat /\
  parseLine [dogEntry]
    (("cat,feline,kitty,dog," +:+ String quote "A cat, it sat.")
     +:+ String quote EmptyString)
  = [dogEntry].
Proof.
  split; [simpl; lia|].
  apply (proj2 (splitFields_quote_glues
                  ("cat,feline,kitty,dog," +:+ String quote "A cat, it sat.")
                  EmptyString)).
  simpl. lia.
Defined.

Lemma trimStart_toCRLF (s : string) :
  Js.trimStart (toCRLF s) = toCRLF (Js.trimStart s).
Proof.
  induction s as [|c s IH]; [reflexivity|].
  cbn [toCRLF Js.trimStart].
  destruct (Ascii.eqb c Js.LF) eqn:Ec.
  - apply Ascii.eqb_eq in Ec. subst c. exact IH.
  - cbn [Js.trimStart]. destruct (Js.isWhiteSpace c); [exact IH|].
    cbn [toCRLF]. rewrite Ec. reflexivity.
Qed.

Lemma hasChar_trimStart (p : ascii -> bool) (s : string) :
  hasChar p s = false -> hasChar p (Js.trimStart s) = false.
Proof.
  induction s as [|c s IH]; [reflexivity|].
  cbn [Js.trimStart]. destruct (Js.isWhiteSpace c); [|auto].
  cbn [hasChar]. intros [_ H]%orb_false_iff. auto.
Qed.

Lemma hasChar_trimEnd (p : ascii -> bool) (s : string) :
  hasChar p s = false -> hasChar p (Js.trimEnd s) = false.
Proof.
  induction s as [|c s IH]; [reflexivity|].
  cbn [hasChar]. intros [Hc Hs]%orb_false_iff. rewrite trimEnd_String.
  specialize (IH Hs). destruct (Js.trimEnd s).
  - destruct (Js.isWhiteSpace c); [reflexivity|]. simpl. rewrite Hc. reflexivity.
  - cbn [hasChar]. rewrite Hc. exact IH.
Qed.

Lemma splitLines_toCRLF (s : string) :
  hasChar (Ascii.eqb Js.CR) s = false ->
  Js.splitLines (toCRLF s) = Js.splitLines s.
Proof.
  induction s as [|c s IH]; [reflexivity|].
  cbn [hasChar]. intros [Hc Hs]%orb_false_iff.
  cbn [toCRLF]. destruct (Ascii.eqb c Js.LF) eqn:Ec.
  - cbn [Js.splitLines]. rewrite Ec.
    change (Ascii.eqb Js.CR Js.LF) with false.
    cbn [Js.startsWith]. rewrite Ascii.eqb_refl. cbn [andb].
    rewrite Ascii.eqb_refl. rewrite (IH Hs). reflexivity.
  - cbn [Js.splitLines]. rewrite Ec.
    rewrite (Ascii.eqb_sym c Js.CR), Hc. cbn [andb].
    rewrite (IH Hs). reflexivity.
Qed.

(** X4: a text without carriage returns parses to the same entries
    when its lines end in carriage return and line feed instead of line
    feed alone. *)
Theorem parseCSV_crlf :
  forall text : string,
    hasChar (Ascii.eqb Js.CR) text = false ->
    parseCSV (toCRLF text) = parseCSV text.
Proof.
  intros text H. rewrite !parseCSV_lines, trimStart_toCRLF.
  rewrite splitLines_toCRLF; [reflexivity|].
  apply hasChar_trimStart, H.
Qed.

Lemma parseCSV_crlf_witness :
  hasChar (Ascii.eqb Js.CR) sampleCsv = false /\
  parseCSV (toCRLF sampleCsv) = parseCSV sampleCsv.
Proof.
  split; [reflexivity|]. apply (parseCSV_crlf sampleCsv). reflexivity.
Defined.

Lemma splitOn_pieces (p : ascii -> bool) (s : string) :
  Forall (fun piece => hasChar p piece = false) (Js.splitOn p s).
Proof.
  induction s as [|c s IH]; cbn [Js.splitOn].
  - repeat constructor.
  - destruct (p c) eqn:Hc; [constructor; [reflexivity | exact IH]|].
    destruct IH as [|x xs Hx Hxs]; cbn [Js.consHead].
    + repeat constructor. simpl. rewrite Hc. reflexivity.
    + constructor; [|exact Hxs]. simpl. rewrite Hc. exact Hx.
Qed.

Lemma trim_trimmed (s : string) : trimmed (Js.trim s).
Proof. apply trim_idempotent. Qed.

Lemma splitList_items (str : string) : Forall listItem (Js.splitList str).
Proof.
  unfold Js.splitList. apply List.Forall_forall. intros x Hx.
  apply filter_In in Hx as [Hx Ht].
  apply in_map_iff in Hx as (piece & <- & Hin).
  pose proof (splitOn_pieces Js.isListSep str) as Hp.
  rewrite List.Forall_forall in Hp. specialize (Hp piece Hin).
  split; [intros E; rewrite E in Ht; discriminate|].
  split; [apply trim_trimmed|].
  unfold Js.trim. apply hasChar_trimEnd, hasChar_trimStart, Hp.
Qed.

Lemma entriesOfLine_parsed (line : string) : Forall parsedEntry (entriesOfLine line).
Proof.
  unfold entriesOfLine, parseLine.
  destruct (negb (Js.truthy line)); [constructor|].
  destruct (length (Js.splitFields line) <? 5)%nat; [constructor|].
  destruct (Js.splitFields line) as [|w [|m [|sy [|an [|ex rest]]]]];
    try constructor; [|constructor].
  unfold parsedEntry. cbn [word meaning example synonyms antonyms].
  repeat split; try apply trim_trimmed; apply splitList_items.
Qed.

(** X5: every entry [parseCSV] returns has its word, meaning and
    example without white space at either end, and its synonyms and
    antonyms are non-empty strings without white space at either end and
    without [;] or [|]. *)
Theorem parseCSV_entries_trimmed :
  forall text : string, Forall parsedEntry (parseCSV text).
Proof.
  intros text. rewrite parseCSV_lines.
  induction (tl (Js.splitLines (Js.trimStart text))) as [|l ls IH]; simpl.
  - constructor.
  - apply Forall_app. split; [apply entriesOfLine_parsed | exact IH].
Qed.

(** ** More on the progress store *)

Lemma timesAnswered_Permutation (w : string) (rs rs' : list Result.t) :
  Permutation rs rs' -> timesAnswered w rs = timesAnswered w rs'.
Proof.
  induction 1 as [|r rs rs' _ IH|a b rs|rs rs' rs'' _ IH1 _ IH2].
  - reflexivity.
  - rewrite !timesAnswered_cons, IH. reflexivity.
  - rewrite !timesAnswered_cons. lia.
  - congruence.
Qed.

Lemma timesCorrect_Permutation (w : string) (rs rs' : list Result.t) :
  Permutation rs rs' -> timesCorrect w rs = timesCorrect w rs'.
Proof.
  induction 1 as [|r rs rs' _ IH|a b rs|rs rs' rs'' _ IH1 _ IH2].
  - reflexivity.
  - rewrite !timesCorrect_cons, IH. reflexivity.
  - rewrite !timesCorrect_cons. lia.
  - congruence.
Qed.

Lemma fold_recordResult_entry u (rs : list Result.t)
    (p : gmap string (gmap string Counter.t)) :
  is_Some (fold_left (recordResult u) rs p !! u) <-> is_Some (p !! u).
Proof.
  split; [|apply fold_recordResult_is_Some].
  destruct (p !! u) as [user|] eqn:E; [eauto|].
  rewrite (fold_recordResult_none u rs p E), E. trivial.
Qed.

(** X6: the order of the results does not matter to what
    [updateProgress] counts: after two result lists that are permutations
    of each other the user name and the word list are the same, the same
    users have an entry, and every user has the same counter, or none, for
    every word. (The keys of the object written may come in another order:
    a counter is made at the first result for its word.) *)
Theorem updateProgress_order_irrelevant :
  forall (u : string) (rs rs' : list Result.t) (st : Storage),
    Permutation rs rs' ->
    let st1 := updateProgress u rs st in
    let st2 := updateProgress u rs' st in
    item_username st1 = item_username st2 /\
    item_words st1 = item_words st2 /\
    (forall u', is_Some (readProgress st1 !! u') <-> is_Some (readProgress st2 !! u')) /\
    (forall u' w,
        counterOf (readProgress st1) u' w = counterOf (readProgress st2) u' w).
Proof.
  intros u rs rs' st Hp. cbv zeta.
  destruct (Js.truthy u) eqn:H.
  - split; [unfold updateProgress; rewrite H; reflexivity|].
    split; [unfold updateProgress; rewrite H; reflexivity|].
    split.
    + intros u'. destruct (decide (u' = u)) as [->|Hne].
      * rewrite !updateProgress_read, !fold_recordResult_entry by exact H. reflexivity.
      * rewrite !updateProgress_other_user by exact Hne. reflexivity.
    + intros u' w. destruct (decide (u' = u)) as [->|Hne].
      * rewrite !updateProgress_counterOf by exact H.
        unfold grown.
        rewrite (timesAnswered_Permutation w rs rs' Hp),
          (timesCorrect_Permutation w rs rs' Hp).
        reflexivity.
      * rewrite (counterOf_other (readProgress st) _ u' w
                   (updateProgress_other_user u rs st u' Hne)).
        rewrite (counterOf_other (readProgress st) _ u' w
                   (updateProgress_other_user u rs' st u' Hne)).
        reflexivity.
  - destruct u; [|discriminate]. repeat split; intros; assumption.
Qed.

Lemma updateProgress_order_irrelevant_witness :
  Permutation mixedResults (rev mixedResults) /\
  counterOf (readProgress (updateProgress "Ann" mixedResults pastStore)) "Ann" "cat"
  = counterOf (readProgress (updateProgress "Ann" (rev mixedResults) pastStore))
      "Ann" "cat" /\
  counterOf (readProgress (updateProgress "Ann" mixedResults pastStore)) "Ann" "cat"
  = Some {| Counter.attempts := 42; Counter.correct := 24 |}.
Proof.
  split; [apply Permutation_rev|]. split; [|vm_compute; reflexivity].
  apply (updateProgress_order_irrelevant "Ann" mixedResults (rev mixedResults) pastStore).
  apply Permutation_rev.
Defined.

(** ** The start page, the upload and the word list *)

(** X7: the start button never stores an empty name, nor one with
    white space at either end: a blank field gives "Guest"; the other keys
    stay as they are; starting again with the stored name changes
    nothing; and the session that follows runs under the stored name. *)
Theorem startLearning_stores_name :
  forall (input : string) (st : Storage),
    let st' := startLearning input st in
    exists name,
      item_username st' = Some name /\
      name <> EmptyString /\ trimmed name /\
      (isBlank input = true -> name = "Guest") /\
      (isBlank input = false -> name = Js.trim input) /\
      item_words st' = item_words st /\
      item_progress st' = item_progress st /\
      startLearning name st' = st' /\
      (forall csv r s, initFlashcards st' csv r = Some s -> username s = name).
Proof.
  intros input st st'. subst st'.
  exists (Js.or_else (Js.trim input) "Guest").
  assert (Hname : Js.or_else (Js.trim input) "Guest" <> EmptyString).
  { unfold Js.or_else. destruct (Js.trim input); simpl; discriminate. }
  assert (Htrim : trimmed (Js.or_else (Js.trim input) "Guest")).
  { unfold Js.or_else. destruct (Js.truthy (Js.trim input));
      [apply trim_trimmed | reflexivity]. }
  split; [reflexivity|]. split; [exact Hname|]. split; [exact Htrim|].
  split.
  { intros Hb. unfold Js.or_else, Js.trim.
    rewrite (trimStart_blank input Hb). reflexivity. }
  split.
  { intros Hb. unfold Js.or_else.
    destruct (Js.trim input) eqn:E; [|reflexivity].
    unfold Js.trim in E. apply trimEnd_empty_blank in E.
    destruct (Js.trimStart input) as [|c rest] eqn:Es.
    - apply trimStart_empty_blank in Es. congruence.
    - exfalso. simpl in E. apply andb_true_iff in E as [Hc _].
      clear -Es Hc. induction input as [|d input IH]; [discriminate|].
      simpl in Es. destruct (Js.isWhiteSpace d) eqn:Hd; [auto|].
      injection Es as -> ->. congruence. }
  split; [reflexivity|]. split; [reflexivity|].
  split.
  { unfold startLearning. cbn [item_words item_progress].
    rewrite Htrim. f_equal. f_equal.
    unfold Js.or_else at 1. apply truthy_iff in Hname. rewrite Hname. reflexivity. }
  intros csv r s. unfold initFlashcards, startLearning.
  cbn [item_username].
  destruct (length _ =? 0)%nat; [discriminate|].
  destruct (shuffleArray _ r) as [entries r1].
  destruct (makeCards _ _ r1) as [session r2].
  intros [= <-]. unfold showCard. cbn [queue].
  destruct session; cbn [username finishSession];
    unfold Js.or_else at 1; apply truthy_iff in Hname; rewrite Hname; reflexivity.
Qed.

Lemma startLearning_stores_name_witness :
  isBlank "   " = true /\
  item_username (startLearning "   " demoStore) = Some "Guest" /\
  isBlank "  Ann " = false /\
  item_username (startLearning "  Ann " demoStore) = Some "Ann".
Proof.
  destruct (startLearning_stores_name "   " demoStore)
    as (n1 & E1 & _ & _ & B1 & _).
  destruct (startLearning_stores_name "  Ann " demoStore)
    as (n2 & E2 & _ & _ & _ & B2 & _).
  split; [reflexivity|]. split; [rewrite E1, (B1 eq_refl); reflexivity|].
  split; [reflexivity|]. rewrite E2, (B2 eq_refl). reflexivity.
Defined.

(** X8: once an upload is accepted, [loadWords] returns the uploaded
    entries, in their order and whatever the default list is or whether
    it can be fetched; an upload that is rejected, for want of a file or
    of an entry, leaves the word list [loadWords] returns as it was. *)
Theorem upload_then_loadWords :
  forall (file : option string) (st : Storage) (csv : option string),
    let st' := fst (uploadCsv file st) in
    match file with
    | Some text =>
        (parseCSV text <> [] -> loadWords st' csv = parseCSV text) /\
        (parseCSV text = [] -> loadWords st' csv = loadWords st csv)
    | None => loadWords st' csv = loadWords st csv
    end.
Proof.
  intros [text|] st csv; [|reflexivity]. cbv zeta. unfold uploadCsv.
  destruct (parseCSV text) as [|e es] eqn:E; simpl.
  - split; [congruence | reflexivity].
  - split; [reflexivity | discriminate].
Qed.

Lemma upload_then_loadWords_witness :
  parseCSV sampleCsv <> [] /\
  loadWords (fst (uploadCsv (Some sampleCsv) lonelyStore)) None = parseCSV sampleCsv.
Proof.
  split; [vm_compute; discriminate|].
  apply (proj1 (upload_then_loadWords (Some sampleCsv) lonelyStore None)).
  vm_compute. discriminate.
Defined.

(** ** Messages *)

(** X9: the message after an answer is one of the five for its
    outcome, whatever the random source gives, and no message serves both
    outcomes: the message for a correct answer is never one shown for an
    incorrect one.  One number is drawn. *)
Theorem getMotivationalMessage_matches_outcome :
  forall (isCorrect : bool) (r : Rng),
    In (fst (getMotivationalMessage isCorrect r))
       (if isCorrect then successMessages else errorMessages) /\
    ~ In (fst (getMotivationalMessage isCorrect r))
         (if isCorrect then errorMessages else successMessages) /\
    snd (getMotivationalMessage isCorrect r) = tl r.
Proof.
  intros isCorrect r. unfold getMotivationalMessage. cbn [fst snd].
  assert (Hlt : forall b : bool,
             (hd 0 r mod length (if b then successMessages else errorMessages) < 5)%nat).
  { intros b. destruct b; apply Nat.mod_upper_bound; discriminate. }
  specialize (Hlt isCorrect).
  destruct isCorrect; cbn [length successMessages errorMessages] in *;
    set (k := (hd 0 r mod 5)%nat) in *; clearbody k;
    do 5 (destruct k as [|k];
          [split; [simpl; tauto | split; [simpl; intuition discriminate | reflexivity]]|]);
    lia.
Qed.

(** ** More on the options *)

Lemma collectCandidates_origin (e : WordEntry) (pool : list WordEntry) (d : string) :
  In d (collectCandidates e pool) ->
  exists other, In other pool /\ word other <> word e /\ In d (synonyms other).
Proof.
  unfold collectCandidates.
  assert (H : forall acc,
             In d (fold_left
                     (fun candidates other =>
                        if String.eqb (word other) (word e) then candidates
                        else candidates ++ synonyms other) pool acc) ->
             In d acc \/
             exists other, In other pool /\ word other <> word e /\ In d (synonyms other)).
  { induction pool as [|o pool IH]; intros acc Hin; simpl in Hin; [left; exact Hin|].
    destruct (IH _ Hin) as [Hacc|(other & Ho & Hw & Hd)].
    - destruct (String.eqb_spec (word o) (word e)) as [_|Hne]; [left; exact Hacc|].
      apply in_app_or in Hacc as [Hacc|Hsyn]; [left; exact Hacc|].
      right. exists o. split; [left; reflexivity | split; assumption].
    - right. exists other. split; [right; exact Ho | split; assumption]. }
  intros Hin. destruct (H [] Hin) as [[]|Hex]. exact Hex.
Qed.

Lemma newSet_subset (xs : list string) : Forall (fun d => In d xs) (newSet xs).
Proof. apply newSet_Forall. apply List.Forall_forall. auto. Qed.

Lemma pickDistractors_origin (P : string -> Prop) (e : WordEntry) (cands : list string) :
  forall acc,
    Forall P cands ->
    Forall (fun d => P d /\ existsb (fun s => sameText s d) (synonyms e) = false) acc ->
    Forall (fun d => P d /\ existsb (fun s => sameText s d) (synonyms e) = false)
      (pickDistractors e cands acc).
Proof.
  induction cands as [|c cands IH]; intros acc Hc Hacc;
    cbn [pickDistractors]; [assumption|].
  inversion Hc; subst.
  destruct (3 <=? length acc)%nat; [assumption|].
  destruct (existsb (fun s => sameText s c) (synonyms e)) eqn:E; cbn [negb].
  - apply IH; assumption.
  - apply IH; [assumption|]. apply Forall_snoc; [assumption | split; assumption].
Qed.

Lemma fillFromWords_origin (P : string -> Prop) (e : WordEntry) (pool : list WordEntry)
    (remaining : list WordEntry) :
  (forall d, fromWords e pool d -> P d) ->
  (forall o, In o remaining -> In o pool) ->
  forall acc, Forall P acc ->
              Forall P (fillFromWords e (correctOf e) remaining acc).
Proof.
  intros HP. induction remaining as [|o rest IH]; intros Hsub acc Hacc;
    cbn [fillFromWords]; [assumption|].
  assert (Hrest : forall o', In o' rest -> In o' pool) by (intros; apply Hsub; right; assumption).
  destruct (length acc <? 3)%nat; [|assumption].
  destruct (String.eqb_spec (word o) (word e)) as [_|Hne]; cbn [negb andb]; [auto|].
  destruct (sameText (word o) (correctOf e)) eqn:E; cbn [negb]; [auto|].
  apply IH; [assumption|]. apply Forall_snoc; [assumption|].
  apply HP. split; [exact E|]. exists o.
  split; [apply Hsub; left; reflexivity | split; [exact Hne | reflexivity]].
Qed.

Lemma fillFromWords_count (e : WordEntry) (remaining : list WordEntry) :
  forall acc,
    (length acc <= 3)%nat ->
    length (fillFromWords e (correctOf e) remaining acc)
    = Nat.min 3 (length acc + length (List.filter (fallbackWord e) remaining)).
Proof.
  induction remaining as [|o rest IH]; intros acc Hacc;
    cbn [fillFromWords List.filter].
  - cbn [length]. lia.
  - destruct (length acc <? 3)%nat eqn:E.
    + apply Nat.ltb_lt in E.
      destruct (fallbackWord e o) eqn:F; unfold fallbackWord in F; rewrite F.
      * rewrite IH by (rewrite length_app; cbn [length]; lia).
        rewrite length_app. cbn [length]. lia.
      * apply IH. lia.
    + apply Nat.ltb_ge in E. lia.
Qed.

(** X10: the options [generateOptions] returns are the correct answer
    and three distractors, in some order.  Each distractor is a non-empty
    synonym of an entry with another word that reads neither like the
    correct answer nor like one of the entry's own synonyms, or the word
    of an entry with another word that does not read like the correct
    answer, or the empty placeholder.  When the pool has three entries
    whose word the fallback accepts, no placeholder is added. *)
Theorem generateOptions_distractors :
  forall (e : WordEntry) (pool : list WordEntry) (r : Rng),
    exists ds,
      Permutation (fst (generateOptions e pool r)) (correctOf e :: ds) /\
      length ds = 3%nat /\
      Forall (distractorOf e pool) ds /\
      ((3 <= length (List.filter (fallbackWord e) pool))%nat ->
       Forall (fun d => fromSynonyms e pool d \/ fromWords e pool d) ds).
Proof.
  intros e pool r. unfold generateOptions.
  set (cset := newSet (List.filter
                         (fun c => Js.truthy c && negb (sameText c (correctOf e)))
                         (collectCandidates e pool))).
  pose proof (shuffleArray_Permutation cset r) as Hperm.
  destruct (shuffleArray cset r) as [cands r1]. cbn [fst] in Hperm.
  set (P := fun d : string =>
              d <> EmptyString /\ sameText d (correctOf e) = false /\
              exists other, In other pool /\ word other <> word e /\ In d (synonyms other)).
  assert (Hcands : Forall P cands).
  { eapply Permutation_Forall; [symmetry; exact Hperm|].
    eapply List.Forall_impl; [|apply newSet_subset].
    intros d Hd. apply filter_In in Hd as [Hd Hf].
    apply andb_true_iff in Hf as [Ht Hs]. apply negb_true_iff in Hs.
    split; [apply truthy_iff, Ht|]. split; [exact Hs|].
    apply collectCandidates_origin, Hd. }
  set (picked := pickDistractors e cands []).
  assert (Hpicked : Forall (fun d => fromSynonyms e pool d \/ fromWords e pool d) picked).
  { eapply List.Forall_impl; [|apply (pickDistractors_origin P e cands [] Hcands); constructor].
    intros d [(Hne & Hs & Hex) Hown]. left. repeat split; assumption. }
  set (filled := fillFromWords e (correctOf e) pool picked).
  assert (Hfilled : Forall (fun d => fromSynonyms e pool d \/ fromWords e pool d) filled).
  { apply (fillFromWords_origin _ e pool pool); auto. }
  assert (Hplen : (length picked <= 3)%nat).
  { apply pickDistractors_length. simpl. lia. }
  assert (Hflen : (length filled <= 3)%nat) by (apply fillFromWords_length, Hplen).
  exists (padDistractors filled).
  pose proof (shuffleArray_Permutation (optionsOf e cands pool) r1) as Hp.
  unfold optionsOf in Hp. fold picked filled in Hp.
  rewrite firstn_all2 in Hp by (rewrite padDistractors_length; lia).
  unfold optionsOf. fold picked filled.
  rewrite firstn_all2 by (rewrite padDistractors_length; lia).
  split; [exact Hp|]. split; [apply padDistractors_length, Hflen|].
  split.
  - unfold padDistractors. apply Forall_app. split.
    + eapply List.Forall_impl; [|exact Hfilled]. intros d [H|H]; [left | right; left]; exact H.
    + apply List.Forall_forall. intros d Hd. apply repeat_spec in Hd.
      right. right. exact Hd.
  - intros Hpool. unfold padDistractors.
    assert (Hfull : length filled = 3%nat).
    { unfold filled. rewrite fillFromWords_count by exact Hplen. lia. }
    rewrite Hfull. simpl. rewrite app_nil_r. exact Hfilled.
Qed.

Lemma generateOptions_distractors_witness :
  (3 <= length (List.filter (fallbackWord catEntry)
                  [catEntry; dogEntry; lonelyEntry; blankEntry;
                   {| word := "owl"; meaning := "bird"; synonyms := [];
                      antonyms := []; example := EmptyString |} ]))%nat /\
  exists ds,
    Permutation
      (fst (generateOptions catEntry
              [catEntry; dogEntry; lonelyEntry; blankEntry;
               {| word := "owl"; meaning := "bird"; synonyms := [];
                  antonyms := []; example := EmptyString |} ] [2; 7]%nat))
      (correctOf catEntry :: ds) /\
    length ds = 3%nat.
Proof.
  split; [vm_compute; lia|].
  destruct (generateOptions_distractors catEntry
              [catEntry; dogEntry; lonelyEntry; blankEntry;
               {| word := "owl"; meaning := "bird"; synonyms := [];
                  antonyms := []; example := EmptyString |} ] [2; 7]%nat)
    as (ds & Hp & Hl & _).
  exists ds. split; assumption.
Defined.

(** ** More on the session *)

Lemma makeCards_entries (pool drawn : list WordEntry) :
  forall r,
    map entry (fst (makeCards pool drawn r)) = drawn /\
    (Forall (fun e => In e pool) drawn ->
     Forall (wellFormedCard pool) (fst (makeCards pool drawn r))).
Proof.
  induction drawn as [|e rest IH]; intros r; cbn [makeCards].
  - split; [reflexivity | constructor].
  - unfold makeCard.
    pose proof (generateOptions_basic e pool r) as [Hlen Hin].
    destruct (generateOptions e pool r) as [opts r1]. cbn [fst] in Hlen, Hin.
    destruct (IH r1) as [IH1 IH2].
    destruct (makeCards pool rest r1) as [cards r2]. cbn [fst] in *.
    split; [cbn [map entry]; rewrite IH1; reflexivity|].
    intros Hall. inversion Hall; subst.
    constructor; [|auto]. repeat split; assumption.
Qed.

Lemma In_firstn_self {A} (n : nat) (l : list A) (x : A) :
  In x (firstn n l) -> In x l.
Proof.
  revert l. induction n as [|n IH]; intros [|y l]; simpl; try tauto.
  intros [H|H]; [left; exact H | right; apply IH, H].
Qed.

(** The state [initFlashcards] starts a session in. *)
Lemma initFlashcards_start st csv r s :
  initFlashcards st csv r = Some s ->
  exists card rest entries,
    Permutation entries (loadWords st csv) /\
    map entry (card :: rest) = firstn (Nat.min 10 (length entries)) entries /\
    Forall (wellFormedCard (loadWords st csv)) (card :: rest) /\
    allWords s = loadWords st csv /\ username s = sessionUser st /\
    queue s = rest /\ results s = [] /\ currentCard s = Some card /\
    optionsEnabled s = true /\ nextVisible s = false /\ finished s = false /\
    store s = st.
Proof.
  unfold initFlashcards. fold (sessionUser st).
  destruct (length (loadWords st csv) =? 0)%nat eqn:El; [discriminate|].
  apply Nat.eqb_neq in El.
  pose proof (shuffleArray_Permutation (loadWords st csv) r) as Hp.
  destruct (shuffleArray (loadWords st csv) r) as [entries r1]. cbn [fst] in Hp.
  set (drawn := firstn (Nat.min 10 (length entries)) entries).
  destruct (makeCards_entries (loadWords st csv) drawn r1) as [He Hwf].
  assert (Hdrawn : Forall (fun e => In e (loadWords st csv)) drawn).
  { apply List.Forall_forall. intros e He'.
    apply (Permutation_in _ Hp). apply (In_firstn_self _ _ _ He'). }
  specialize (Hwf Hdrawn).
  assert (Hlen : length drawn <> 0%nat).
  { unfold drawn. rewrite length_firstn, (Permutation_length Hp). lia. }
  destruct (makeCards (loadWords st csv) drawn r1) as [session r2]. cbn [fst] in *.
  destruct session as [|card rest].
  { rewrite <- He in Hlen. simpl in Hlen. congruence. }
  intros [= <-]. exists card, rest, entries.
  unfold showCard. cbn. repeat split; assumption.
Qed.

Lemma handleOptionClick_frame (sel : string) (card : SessionCard) (s : Session) :
  let s2 := handleOptionClick sel card s in
  allWords s2 = allWords s /\ username s2 = username s /\
  currentCard s2 = currentCard s /\ store s2 = store s.
Proof.
  unfold handleOptionClick, requeuedCard. cbv zeta.
  destruct (getMotivationalMessage (sameText sel (correct card)) (rng s))
    as [text rng1].
  destruct (sameText sel (correct card)); [repeat split|].
  destruct (generateOptions (entry card) (allWords s) rng1). repeat split.
Qed.

Lemma run_invariant (I : Session -> Prop) (n : nat) :
  (forall s ev, sessionInv n s -> I s -> I (dispatch s ev)) ->
  forall events s, sessionInv n s -> I s -> I (run s events).
Proof.
  intros Hstep. unfold run.
  induction events as [|ev events IH]; intros s Hinv HI; simpl; [assumption|].
  apply IH; [apply dispatch_inv, Hinv | apply Hstep; assumption].
Qed.

(** Between two clicks: the Next button hides the enabled options, and
    a finished session has nothing enabled. *)
Lemma sessionInv_gates n (s : Session) :
  sessionInv n s ->
  (nextVisible s = true -> optionsEnabled s = false /\ finished s = false) /\
  (finished s = true -> optionsEnabled s = false /\ nextVisible s = false /\ queue s = []).
Proof.
  intros (_ & Hopt & Hfin). split.
  - intros Hn. split.
    + destruct (optionsEnabled s); [destruct (Hopt eq_refl); congruence | reflexivity].
    + destruct (finished s); [destruct (Hfin eq_refl); congruence | reflexivity].
  - intros Hf. destruct (Hfin Hf) as [Hq Hn]. repeat split; try assumption.
    destruct (optionsEnabled s); [destruct (Hopt eq_refl); congruence | reflexivity].
Qed.

Lemma dispatch_finished n (s : Session) (ev : Event) :
  sessionInv n s -> finished s = true -> dispatch s ev = s.
Proof.
  intros Hinv Hf.
  destruct (proj2 (sessionInv_gates n s Hinv) Hf) as (Ho & Hn & _).
  destruct ev; simpl; [|rewrite Hn; reflexivity].
  destruct (currentCard s); [|reflexivity]. rewrite Ho. reflexivity.
Qed.

Lemma dispatch_cards_wellFormed n (pool : list WordEntry) (s : Session) (ev : Event) :
  sessionInv n s ->
  allWords s = pool /\
  Forall (wellFormedCard pool) (cardsInPlay s) /\
  Forall (fun r => exists e, In e pool /\ word e = Result.word r) (results s) ->
  allWords (dispatch s ev) = pool /\
  Forall (wellFormedCard pool) (cardsInPlay (dispatch s ev)) /\
  Forall (fun r => exists e, In e pool /\ word e = Result.word r)
    (results (dispatch s ev)).
Proof.
  intros Hinv (Hall & Hcards & Hres). destruct ev as [sel|]; cbn [dispatch].
  - destruct (currentCard s) as [card|] eqn:Ecur; [|auto].
    destruct (optionsEnabled s) eqn:Hen; cbn [andb]; [|auto].
    destruct (existsb (String.eqb sel) (options card)); [|auto].
    unfold cardsInPlay in Hcards. rewrite Hen, Ecur in Hcards.
    apply Forall_app in Hcards as [Hcard Hqueue].
    inversion Hcard as [|? ? Hwf _]; subst.
    destruct (handleOptionClick_effect sel card s) as (Hr & Hq & Ho & _).
    destruct (handleOptionClick_frame sel card s) as (Ha & _).
    cbv zeta in Hr, Hq, Ho, Ha.
    unfold cardsInPlay. rewrite Ha, Hr, Hq, Ho. cbn [app].
    split; [reflexivity|]. split.
    + destruct (sameText sel (correct card)); [exact Hqueue|].
      apply Forall_app. split; [exact Hqueue|]. constructor; [|constructor].
      destruct Hwf as (Hin & _ & _ & Hc).
      destruct (generateOptions_basic (entry card) (allWords s)
                  (snd (getMotivationalMessage false (rng s)))) as [Hlen Hopt].
      repeat split; assumption.
    + apply Forall_app. split; [exact Hres|]. constructor; [|constructor].
      exists (entry card). split; [apply Hwf | reflexivity].
  - destruct (nextVisible s) eqn:Hn; [|auto].
    unfold cardsInPlay in Hcards. apply Forall_app in Hcards as [_ Hqueue].
    unfold showCard. destruct (queue s) as [|card rest] eqn:Eq.
    + unfold cardsInPlay. cbn. rewrite Eq. repeat split; [assumption | constructor | assumption].
    + unfold cardsInPlay. cbn. repeat split; assumption.
Qed.

(** X11: every card of a session, the one on display and those in the
    queue, first drawn or requeued, is for an entry of the word list, has
    four options with the correct option of [generateOptions] among them,
    and stores the answer [initFlashcards] gave it; every result is about
    the word of an entry of the word list. *)
Theorem session_cards_well_formed :
  forall st csv r s events,
    initFlashcards st csv r = Some s ->
    let s' := run s events in
    let pool := loadWords st csv in
    allWords s' = pool /\
    Forall (wellFormedCard pool) (cardsInPlay s') /\
    Forall (fun res => exists e, In e pool /\ word e = Result.word res) (results s').
Proof.
  intros st csv r s events Hinit s' pool.
  pose proof (initFlashcards_inv st csv r s Hinit) as Hinv.
  destruct (initFlashcards_start st csv r s Hinit)
    as (card & rest & entries & _ & _ & Hwf & Ha & _ & Hq & Hr & Hc & Ho & _).
  apply (run_invariant
           (fun s => allWords s = pool /\
                     Forall (wellFormedCard pool) (cardsInPlay s) /\
                     Forall (fun res => exists e, In e pool /\ word e = Result.word res)
                       (results s))
           (Nat.min 10 (length (loadWords st csv)))).
  - intros s0 ev. apply dispatch_cards_wellFormed.
  - exact Hinv.
  - unfold cardsInPlay. rewrite Ha, Hq, Hr, Hc, Ho.
    split; [reflexivity|]. split; [exact Hwf | constructor].
Qed.

Lemma session_cards_well_formed_witness :
  exists s,
    initFlashcards demoStore None [] = Some s /\
    Forall (wellFormedCard (loadWords demoStore None))
      (cardsInPlay (run s [ClickOption "kitty"; ClickNext])).
Proof.
  eexists. split; [vm_compute; reflexivity|].
  apply (session_cards_well_formed demoStore None [] _ [ClickOption "kitty"; ClickNext]
           eq_refl).
Defined.

Lemma dispatch_words_covered n (ws : list string) (s : Session) (ev : Event) :
  sessionInv n s ->
  (forall w, In w ws ->
             answeredCorrectly w (results s) \/ In w (map wordOfCard (cardsInPlay s))) ->
  forall w, In w ws ->
            answeredCorrectly w (results (dispatch s ev)) \/
            In w (map wordOfCard (cardsInPlay (dispatch s ev))).
Proof.
  intros Hinv Hcov w Hw. specialize (Hcov w Hw).
  destruct ev as [sel|]; cbn [dispatch].
  - destruct (currentCard s) as [card|] eqn:Ecur; [|exact Hcov].
    destruct (optionsEnabled s) eqn:Hen; cbn [andb]; [|exact Hcov].
    destruct (existsb (String.eqb sel) (options card)); [|exact Hcov].
    destruct (handleOptionClick_effect sel card s) as (Hr & Hq & Ho & _).
    cbv zeta in Hr, Hq, Ho.
    unfold cardsInPlay in *. rewrite Hen, Ecur in Hcov. rewrite Hr, Hq, Ho.
    unfold answeredCorrectly in *. cbn [app map] in *.
    destruct Hcov as [Hans|[Hcur|Hqueue]].
    + left. apply in_or_app. left. exact Hans.
    + destruct (sameText sel (correct card)).
      * left. apply in_or_app. right. left. rewrite <- Hcur. reflexivity.
      * right. rewrite map_app. apply in_or_app. right. left. exact Hcur.
    + right. destruct (sameText sel (correct card)); [exact Hqueue|].
      rewrite map_app. apply in_or_app. left. exact Hqueue.
  - destruct (nextVisible s) eqn:Hn; [|exact Hcov].
    destruct (proj1 (sessionInv_gates n s Hinv) Hn) as [Ho _].
    unfold cardsInPlay in *. rewrite Ho in Hcov. cbn [app] in Hcov.
    unfold showCard. destruct (queue s) as [|card rest] eqn:Eq; cbn.
    + rewrite Eq. exact Hcov.
    + exact Hcov.
Qed.

(** X12: a session finishes only when every word it started with has a
    correct answer among the results: a card answered incorrectly comes
    back until it is answered correctly. *)
Theorem session_ends_with_every_word_correct :
  forall st csv r s events,
    initFlashcards st csv r = Some s ->
    finished (run s events) = true ->
    forall w, In w (map wordOfCard (cardsInPlay s)) ->
              answeredCorrectly w (results (run s events)).
Proof.
  intros st csv r s events Hinit Hfin w Hw.
  pose proof (initFlashcards_inv st csv r s Hinit) as Hinv.
  set (n := Nat.min 10 (length (loadWords st csv))) in *.
  assert (Hcov : forall w, In w (map wordOfCard (cardsInPlay s)) ->
                   answeredCorrectly w (results (run s events)) \/
                   In w (map wordOfCard (cardsInPlay (run s events)))).
  { apply (run_invariant
             (fun s' => forall w, In w (map wordOfCard (cardsInPlay s)) ->
                          answeredCorrectly w (results s') \/
                          In w (map wordOfCard (cardsInPlay s'))) n).
    - intros s0 ev. apply dispatch_words_covered.
    - exact Hinv.
    - intros w' Hw'. right. exact Hw'. }
  destruct (Hcov w Hw) as [Hans|Hpending]; [exact Hans|].
  pose proof (run_inv n events s Hinv) as Hinv'.
  destruct (proj2 (sessionInv_gates n _ Hinv') Hfin) as (Ho & _ & Hq).
  unfold cardsInPlay in Hpending. rewrite Ho, Hq in Hpending. destruct Hpending.
Qed.

Lemma session_ends_with_every_word_correct_witness :
  exists s,
    initFlashcards demoStore None [] = Some s /\
    finished (run s demoEvents) = true /\
    In "dog" (map wordOfCard (cardsInPlay s)) /\
    answeredCorrectly "dog" (results (run s demoEvents)).
Proof.
  eexists. split; [vm_compute; reflexivity|].
  split; [vm_compute; reflexivity|].
  split; [vm_compute; left; reflexivity|].
  apply (session_ends_with_every_word_correct demoStore None [] _ demoEvents eq_refl).
  - vm_compute. reflexivity.
  - vm_compute. left. reflexivity.
Defined.

Lemma dispatch_store n (st : Storage) (s : Session) (ev : Event) :
  sessionInv n s ->
  (finished s = false -> store s = st) /\
  (finished s = true -> store s = updateProgress (username s) (results s) st) ->
  (finished (dispatch s ev) = false -> store (dispatch s ev) = st) /\
  (finished (dispatch s ev) = true ->
   store (dispatch s ev)
   = updateProgress (username (dispatch s ev)) (results (dispatch s ev)) st).
Proof.
  intros Hinv [Hrun Hdone].
  destruct (finished s) eqn:Hf.
  { rewrite (dispatch_finished n s ev Hinv Hf), Hf. split; [discriminate | exact Hdone]. }
  specialize (Hrun eq_refl).
  destruct ev as [sel|]; cbn [dispatch].
  - destruct (currentCard s) as [card|]; [|rewrite Hf; split; [auto | discriminate]].
    destruct (optionsEnabled s && existsb (String.eqb sel) (options card));
      [|rewrite Hf; split; [auto | discriminate]].
    destruct (handleOptionClick_effect sel card s) as (_ & _ & _ & _ & Hfin).
    destruct (handleOptionClick_frame sel card s) as (_ & _ & _ & Hst).
    cbv zeta in Hfin, Hst. rewrite Hfin, Hst, Hf. split; [auto | discriminate].
  - destruct (nextVisible s); [|rewrite Hf; split; [auto | discriminate]].
    unfold showCard. destruct (queue s) as [|card rest]; cbn.
    + split; [discriminate|]. intros _. rewrite Hrun. reflexivity.
    + rewrite Hf. split; [auto | discriminate].
Qed.

(** X13: nothing is written to the store while a session runs, so a
    session that is left before its end records nothing; when the session
    finishes, the store is the one [updateProgress] makes of the store the
    session started with, for the name of the session, never empty, and
    all its results; whatever is clicked after that changes nothing. *)
Theorem session_persists_once :
  forall st csv r s events,
    initFlashcards st csv r = Some s ->
    let s' := run s events in
    username s' = sessionUser st /\ sessionUser st <> EmptyString /\
    (finished s' = false -> store s' = st) /\
    (finished s' = true ->
       store s' = updateProgress (sessionUser st) (results s') st /\
       forall more, run s' more = s').
Proof.
  intros st csv r s events Hinit s'.
  pose proof (initFlashcards_inv st csv r s Hinit) as Hinv.
  set (n := Nat.min 10 (length (loadWords st csv))) in *.
  destruct (initFlashcards_start st csv r s Hinit)
    as (card & rest & entries & _ & _ & _ & _ & Hu & _ & _ & _ & _ & _ & Hf & Hst).
  assert (Hname : username s' = sessionUser st).
  { apply (run_invariant (fun s0 => username s0 = sessionUser st) n);
      [|exact Hinv|exact Hu].
    intros s0 ev _ Hs0. destruct ev as [sel|]; cbn [dispatch].
    - destruct (currentCard s0) as [c|]; [|exact Hs0].
      destruct (_ && _); [|exact Hs0].
      destruct (handleOptionClick_frame sel c s0) as (_ & Hn & _).
      cbv zeta in Hn. congruence.
    - destruct (nextVisible s0); [|exact Hs0].
      unfold showCard. destruct (queue s0); exact Hs0. }
  assert (Hstore : (finished s' = false -> store s' = st) /\
                   (finished s' = true ->
                    store s' = updateProgress (username s') (results s') st)).
  { apply (run_invariant
             (fun s0 => (finished s0 = false -> store s0 = st) /\
                        (finished s0 = true ->
                         store s0 = updateProgress (username s0) (results s0) st)) n).
    - intros s0 ev. apply dispatch_store.
    - exact Hinv.
    - rewrite Hf. split; [auto | discriminate]. }
  split; [exact Hname|]. split.
  { unfold sessionUser, Js.or_else.
    destruct (item_username st) as [[|c u]|]; simpl; discriminate. }
  split; [apply Hstore|].
  intros Hfin. split; [rewrite <- Hname; apply Hstore, Hfin|].
  pose proof (run_inv n events s Hinv) as Hinv'. fold s' in Hinv'.
  intros more. unfold run. induction more as [|ev more IH]; simpl; [reflexivity|].
  rewrite (dispatch_finished n s' ev Hinv' Hfin). exact IH.
Qed.

Lemma session_persists_once_witness :
  exists s,
    initFlashcards demoStore None [] = Some s /\
    finished (run s [ClickOption "kitty"; ClickNext]) = false /\
    store (run s [ClickOption "kitty"; ClickNext]) = demoStore /\
    finished (run s demoEvents) = true /\
    store (run s demoEvents)
    = updateProgress "Ann" (results (run s demoEvents)) demoStore.
Proof.
  eexists. split; [vm_compute; reflexivity|].
  split; [vm_compute; reflexivity|].
  split.
  { apply (session_persists_once demoStore None [] _
             [ClickOption "kitty"; ClickNext] eq_refl).
    vm_compute. reflexivity. }
  split; [vm_compute; reflexivity|].
  apply (session_persists_once demoStore None [] _ demoEvents eq_refl).
  vm_compute. reflexivity.
Defined.

Lemma run_two (s : Session) (e1 e2 : Event) (events : list Event) :
  run s (e1 :: e2 :: events) = run (dispatch (dispatch s e1) e2) events.
Proof. reflexivity. Qed.

Lemma perfect_run (q : list SessionCard) :
  forall (c : SessionCard) (s : Session),
    currentCard s = Some c -> optionsEnabled s = true -> finished s = false ->
    queue s = q ->
    Forall (fun card => existsb (String.eqb (correct card)) (options card) = true)
      (c :: q) ->
    finished (run s (perfectEvents (c :: q))) = true /\
    results (run s (perfectEvents (c :: q))) = results s ++ map correctResult (c :: q).
Proof.
  induction q as [|c' q IH]; intros c s Hcur Hen Hfin Hq Hok;
    inversion Hok as [|? ? Hc Hrest]; subst;
    change (perfectEvents (c :: ?l))
      with (ClickOption (correct c) :: ClickNext :: perfectEvents l);
    rewrite run_two; cbn [dispatch]; rewrite Hcur, Hen, Hc; cbn [andb];
    destruct (handleOptionClick_effect (correct c) c s) as (Hr & Hq' & Ho & Hn & Hf);
    destruct (handleOptionClick_frame (correct c) c s) as (_ & _ & Hcur' & _);
    cbv zeta in Hr, Hq', Ho, Hn, Hf, Hcur';
    rewrite sameText_refl in Hr, Hq';
    rewrite Hn; unfold showCard; rewrite Hq', Hq.
  - cbn. split; [reflexivity | exact Hr].
  - match goal with |- context [run ?x _] => set (next := x) end.
    destruct (IH c' next) as [IH1 IH2]; try reflexivity.
    + unfold next. cbn [finished]. rewrite Hf. exact Hfin.
    + exact Hrest.
    + split; [exact IH1|]. rewrite IH2. cbn [results next]. rewrite Hr.
      rewrite <- app_assoc. reflexivity.
Qed.

Lemma incorrectCount_correctResults (cards : list SessionCard) :
  incorrectCount (map correctResult cards) = 0%nat.
Proof. induction cards as [|c cards IH]; [reflexivity | exact IH]. Qed.

(** X14: when every entry of the word list has a first synonym, a
    session can always be completed: picking on every card the answer
    stored on it, then Next, finishes the session after as many answers as
    cards were drawn, min(10, size of the word list), all of them recorded
    as correct and in the order of the cards. *)
Theorem session_completes_with_correct_answers :
  forall st csv r s,
    initFlashcards st csv r = Some s ->
    Forall (fun e => Js.truthy (hd EmptyString (synonyms e)) = true) (loadWords st csv) ->
    let s' := run s (perfectEvents (cardsInPlay s)) in
    finished s' = true /\
    results s' = map correctResult (cardsInPlay s) /\
    incorrectCount (results s') = 0%nat /\
    length (results s') = Nat.min 10 (length (loadWords st csv)).
Proof.
  intros st csv r s Hinit Hsyn s'.
  destruct (initFlashcards_start st csv r s Hinit)
    as (card & rest & entries & Hp & He & Hwf & _ & _ & Hq & Hr & Hc & Ho & _ & Hf & _).
  assert (Hplay : cardsInPlay s = card :: rest).
  { unfold cardsInPlay. rewrite Ho, Hc, Hq. reflexivity. }
  assert (Hok : Forall (fun c => existsb (String.eqb (correct c)) (options c) = true)
                  (card :: rest)).
  { eapply List.Forall_impl; [|exact Hwf].
    intros c (Hin & _ & Hopt & Hcor).
    rewrite List.Forall_forall in Hsyn.
    rewrite Hcor, (cardCorrect_with_synonym _ (Hsyn _ Hin)).
    apply existsb_exists. exists (correctOf (entry c)).
    split; [exact Hopt | apply String.eqb_refl]. }
  destruct (perfect_run rest card s Hc Ho Hf Hq Hok) as [H1 H2].
  subst s'. rewrite Hplay, H2, Hr. cbn [app].
  split; [exact H1|]. split; [reflexivity|].
  split; [apply incorrectCount_correctResults|].
  rewrite length_map.
  change (length (card :: rest)) with (length (card :: rest)).
  rewrite <- (length_map entry (card :: rest)), He, length_firstn.
  rewrite (Permutation_length Hp). lia.
Qed.

Lemma session_completes_with_correct_answers_witness :
  exists s,
    initFlashcards demoStore None [4; 2]%nat = Some s /\
    Forall (fun e => Js.truthy (hd EmptyString (synonyms e)) = true)
      (loadWords demoStore None) /\
    finished (run s (perfectEvents (cardsInPlay s))) = true /\
    length (results (run s (perfectEvents (cardsInPlay s)))) = 2%nat.
Proof.
  eexists. split; [vm_compute; reflexivity|].
  assert (Hsyn : Forall (fun e => Js.truthy (hd EmptyString (synonyms e)) = true)
                   (loadWords demoStore None)) by (repeat constructor).
  split; [exact Hsyn|].
  destruct (session_completes_with_correct_answers demoStore None [4; 2]%nat _
              eq_refl Hsyn) as (H1 & _ & _ & H4).
  split; [exact H1 | exact H4].
Defined.

(** X15: the cards a session starts with are for min(10, size of the
    word list) entries of the word list, none taken more often than the
    list has it: together with the entries left out they make up the word
    list; with at most ten entries in the list, every entry gets a card. *)
Theorem session_draws_distinct_entries :
  forall st csv r s,
    initFlashcards st csv r = Some s ->
    let drawn := map entry (cardsInPlay s) in
    length drawn = Nat.min 10 (length (loadWords st csv)) /\
    (exists others, Permutation (drawn ++ others) (loadWords st csv)) /\
    ((length (loadWords st csv) <= 10)%nat -> Permutation drawn (loadWords st csv)).
Proof.
  intros st csv r s Hinit drawn.
  destruct (initFlashcards_start st csv r s Hinit)
    as (card & rest & entries & Hp & He & _ & _ & _ & Hq & _ & Hc & Ho & _).
  assert (Hdrawn : drawn = firstn (Nat.min 10 (length entries)) entries).
  { subst drawn. unfold cardsInPlay. rewrite Ho, Hc, Hq. exact He. }
  rewrite Hdrawn. split; [|split].
  - rewrite length_firstn, (Permutation_length Hp). lia.
  - exists (skipn (Nat.min 10 (length entries)) entries).
    rewrite firstn_skipn. exact Hp.
  - intros Hlen. rewrite firstn_all2; [exact Hp|].
    rewrite (Permutation_length Hp). lia.
Qed.

Lemma session_draws_distinct_entries_witness :
  exists s,
    initFlashcards demoStore None [1; 1; 1]%nat = Some s /\
    (length (loadWords demoStore None) <= 10)%nat /\
    Permutation (map entry (cardsInPlay s)) (loadWords demoStore None).
Proof.
  eexists. split; [vm_compute; reflexivity|].
  split; [simpl; lia|].
  apply (proj2 (proj2 (session_draws_distinct_entries demoStore None [1; 1; 1]%nat _
                         eq_refl))).
  simpl. lia.
Defined.

(** ** The accuracy figure up to 200 attempts *)

Lemma mathRound_shift (x : float) : mathRound x = mathRoundShift x.
Proof.
  unfold mathRound, mathRoundShift.
  destruct (Prim2SF x) as [| | |s m e]; try reflexivity.
  destruct (0 <=? e)%Z eqn:E.
  - apply Z.leb_le in E. rewrite Z.shiftl_mul_pow2 by assumption. reflexivity.
  - apply Z.leb_gt in E.
    rewrite Z.shiftr_div_pow2, Z.shiftl_mul_pow2 by lia.
    replace (1 - e)%Z with (Z.succ (- e)) by lia.
    rewrite Z.pow_succ_r by lia. rewrite Z.mul_1_l. reflexivity.
Qed.

Lemma accuracy_shift (c a : Z) : accuracy c a = accuracyShift c a.
Proof.
  unfold accuracy, accuracyShift.
  destruct (a =? 0)%Z; [reflexivity | apply mathRound_shift].
Qed.

Lemma accuracyOkUpTo_sound (n : nat) (c a : Z) :
  accuracyOkUpTo n = true ->
  (0 <= c <= a)%Z -> (0 < a <= Z.of_nat n)%Z ->
  accuracyOk c a = true.
Proof.
  unfold accuracyOkUpTo, accuracyOkRow. intros H Hc Ha.
  rewrite forallb_forall in H.
  specialize (H (Z.to_nat a)). rewrite forallb_forall in H.
  specialize (fun Hin => H Hin (Z.to_nat c)).
  rewrite !Z2Nat.id in H by lia.
  apply H; apply in_seq; lia.
Qed.

Lemma accuracy_checked : accuracyOkUpTo 200 = true.
Proof. vm_compute. reflexivity. Qed.

(** X21: with at most 200 attempts and no more correct answers than
    attempts, the accuracy figure is the percentage rounded to the nearest
    integer, a half going up, except where the correct answers are 14.5,
    28.5, 56.5 or 57.5 per cent of the attempts: there, and only there, it
    is one less. *)
Theorem accuracy_up_to_200_attempts :
  forall c a : Z,
    (0 <= c <= a)%Z -> (0 < a <= 200)%Z ->
    accuracy c a
    = (exactPercent c a - (if lowFigure c a then 1 else 0))%Z.
Proof.
  intros c a Hc Ha. rewrite accuracy_shift. apply Z.eqb_eq.
  apply (accuracyOkUpTo_sound 200 c a accuracy_checked); lia.
Qed.

Lemma accuracy_up_to_200_attempts_witness :
  (0 <= 23 <= 40)%Z /\ (0 < 40 <= 200)%Z /\ lowFigure 23 40 = true /\
  accuracy 23 40 = (exactPercent 23 40 - 1)%Z /\
  lowFigure 1 8 = false /\
  accuracy 1 8 = exactPercent 1 8 /\ exactPercent 1 8 = 13%Z.
Proof.
  split; [lia|]. split; [lia|]. split; [reflexivity|].
  split; [apply (accuracy_up_to_200_attempts 23 40); lia|].
  split; [reflexivity|].
  split; [|reflexivity].
  rewrite (accuracy_up_to_200_attempts 1 8) by lia. reflexivity.
Defined.

(** ** The dashboards *)

Lemma totalAttempts_insert (m : gmap string Counter.t) w (c : Counter.t) :
  totalAttempts (<[w := c]> m)
  = (totalAttempts m - Counter.attempts (default Counter.zero (m !! w))
     + Counter.attempts c)%Z.
Proof.
  unfold totalAttempts. destruct (m !! w) as [old|] eqn:E; cbn [from_option id].
  - rewrite <- insert_delete_eq.
    rewrite map_fold_insert_L; [|intros; lia|apply lookup_delete_eq].
    rewrite (map_fold_delete_L _ _ w old m); [lia|intros; lia|exact E].
  - rewrite map_fold_insert_L; [simpl; lia|intros; lia|exact E].
Qed.

Lemma totalCorrect_insert (m : gmap string Counter.t) w (c : Counter.t) :
  totalCorrect (<[w := c]> m)
  = (totalCorrect m - Counter.correct (default Counter.zero (m !! w))
     + Counter.correct c)%Z.
Proof.
  unfold totalCorrect. destruct (m !! w) as [old|] eqn:E; cbn [from_option id].
  - rewrite <- insert_delete_eq.
    rewrite map_fold_insert_L; [|intros; lia|apply lookup_delete_eq].
    rewrite (map_fold_delete_L _ _ w old m); [lia|intros; lia|exact E].
  - rewrite map_fold_insert_L; [simpl; lia|intros; lia|exact E].
Qed.

Lemma countersOf_recordResult u (p : gmap string (gmap string Counter.t)) (res : Result.t) :
  (p !! u = None -> Js.inheritedName u = true) ->
  countersOf (recordResult u p res) u
  = if counts p u (Result.word res)
    then <[Result.word res :=
             bump res (default Counter.zero (countersOf p u !! Result.word res))]>
           (countersOf p u)
    else countersOf p u.
Proof.
  intros Hp. unfold countersOf, recordResult, counts.
  destruct (p !! u) as [user|] eqn:E; cbn [from_option id].
  - destruct (user !! Result.word res) as [c|] eqn:F; cbn [from_option id].
    + rewrite lookup_insert_eq. reflexivity.
    + destruct (Js.inheritedName (Result.word res)); cbn [negb].
      * rewrite E. reflexivity.
      * rewrite lookup_insert_eq. reflexivity.
  - rewrite E, (Hp eq_refl). reflexivity.
Qed.

Lemma countersOf_ensureUser u (p : gmap string (gmap string Counter.t)) :
  countersOf (ensureUser u p) u = countersOf p u.
Proof.
  unfold countersOf, ensureUser. destruct (p !! u) eqn:E.
  - rewrite E. reflexivity.
  - destruct (Js.inheritedName u).
    + rewrite E. reflexivity.
    + rewrite lookup_insert_eq. reflexivity.
Qed.

Lemma countersOf_lookup (p : gmap string (gmap string Counter.t)) u w :
  countersOf p u !! w = counterOf p u w.
Proof.
  unfold countersOf, counterOf. destruct (p !! u); [reflexivity | apply lookup_empty].
Qed.

Lemma countedResults_cons u (p : gmap string (gmap string Counter.t))
    (r : Result.t) (rs : list Result.t) :
  countedResults p u (r :: rs)
  = if counts p u (Result.word r) then r :: countedResults p u rs
    else countedResults p u rs.
Proof. reflexivity. Qed.

Lemma countedResults_recordResult u (p : gmap string (gmap string Counter.t))
    (r : Result.t) (rs : list Result.t) :
  countedResults (recordResult u p r) u rs = countedResults p u rs.
Proof.
  unfold countedResults. apply List.filter_ext. intros a. apply recordResult_counts.
Qed.

Lemma countedResults_ensureUser u (p : gmap string (gmap string Counter.t))
    (rs : list Result.t) :
  countedResults (ensureUser u p) u rs = countedResults p u rs.
Proof.
  unfold countedResults. apply List.filter_ext. intros a. apply ensureUser_counts.
Qed.

(** Where no name is an inherited one, every result is counted. *)
Lemma countedResults_all u (p : gmap string (gmap string Counter.t)) (rs : list Result.t) :
  Js.inheritedName u = false ->
  (forall r, In r rs -> Js.inheritedName (Result.word r) = false) ->
  countedResults p u rs = rs.
Proof.
  intros Hu Hrs. unfold countedResults.
  induction rs as [|r rs IH]; [reflexivity|]. cbn [List.filter].
  assert (Hc : counts p u (Result.word r) = true).
  { unfold counts. rewrite Hu, (Hrs r (or_introl eq_refl)).
    destruct (p !! u) as [user|]; [|reflexivity].
    destruct (user !! Result.word r); reflexivity. }
  rewrite Hc, IH; [reflexivity|]. intros r' Hin. apply Hrs. right. exact Hin.
Qed.

Lemma fold_recordResult_totals u (rs : list Result.t) :
  forall p : gmap string (gmap string Counter.t),
    (p !! u = None -> Js.inheritedName u = true) ->
    let after := countersOf (fold_left (recordResult u) rs p) u in
    let counted := countedResults p u rs in
    totalAttempts after
    = (totalAttempts (countersOf p u) + Z.of_nat (length counted))%Z /\
    totalCorrect after
    = (totalCorrect (countersOf p u) + Z.of_nat (length counted)
       - Z.of_nat (incorrectCount counted))%Z.
Proof.
  induction rs as [|r rs IH]; intros p Hp; cbv zeta.
  - simpl. unfold incorrectCount. simpl. lia.
  - cbn [fold_left].
    destruct (IH (recordResult u p r) (recordResult_settled u p r Hp)) as [IH1 IH2].
    rewrite IH1, IH2, countedResults_recordResult, countersOf_recordResult by exact Hp.
    rewrite !countedResults_cons.
    destruct (counts p u (Result.word r)); [|split; reflexivity].
    rewrite totalAttempts_insert, totalCorrect_insert.
    unfold incorrectCount. cbn [List.filter length].
    unfold bump. cbn [Counter.attempts Counter.correct].
    destruct (Result.correct r); cbn [negb length]; lia.
Qed.

Lemma fold_recordResult_uncounted u (rs : list Result.t) :
  forall p : gmap string (gmap string Counter.t),
    (p !! u = None -> Js.inheritedName u = true) ->
    countedResults p u rs = [] ->
    countersOf (fold_left (recordResult u) rs p) u = countersOf p u.
Proof.
  induction rs as [|r rs IH]; intros p Hp Hc; [reflexivity|].
  cbn [fold_left]. unfold countedResults in Hc. cbn [List.filter] in Hc.
  destruct (counts p u (Result.word r)) eqn:E; [discriminate|].
  rewrite IH.
  - rewrite countersOf_recordResult, E by exact Hp. reflexivity.
  - apply recordResult_settled, Hp.
  - rewrite countedResults_recordResult. exact Hc.
Qed.

(** X16: after [updateProgress] for the name the store holds as
    [username], of which at least one result is counted, the dashboard
    shows the table, not a message; its total of attempts has grown by the
    number of counted results and its total of correct answers by the
    number of correct ones among them, and it counts at least one word.
    Every result is counted when neither the user name nor a word is a
    name inherited from [Object.prototype]. When no result is counted and
    the user had no counter, the dashboard says that there is no progress
    yet. *)
Theorem dashboard_after_update :
  forall (u : string) (rs : list Result.t) (st : Storage),
    item_username st = Some u -> u <> EmptyString ->
    let counted := countedResults (readProgress st) u rs in
    (Js.inheritedName u = false ->
     (forall r, In r rs -> Js.inheritedName (Result.word r) = false) ->
     counted = rs) /\
    (counted <> [] ->
     exists summary rows,
       renderDashboard (updateProgress u rs st) = DashTable summary rows /\
       sumAttempts summary
       = (totalAttempts (countersOf (readProgress st) u)
          + Z.of_nat (length counted))%Z /\
       sumCorrect summary
       = (totalCorrect (countersOf (readProgress st) u) + Z.of_nat (length counted)
          - Z.of_nat (incorrectCount counted))%Z /\
       (1 <= wordCount summary)%nat) /\
    (counted = [] -> countersOf (readProgress st) u = ∅ ->
     renderDashboard (updateProgress u rs st)
     = DashMessage "No progress yet. Start learning to see your results.").
Proof.
  intros u rs st Hu Hne. cbv zeta.
  pose proof (proj2 (truthy_iff u) Hne) as Ht.
  pose proof (updateProgress_read u rs st Ht) as Hread.
  set (after := countersOf (readProgress (updateProgress u rs st)) u).
  assert (Hname : item_username (updateProgress u rs st) = Some u).
  { unfold updateProgress. rewrite Ht. exact Hu. }
  assert (Hprog : item_progress (updateProgress u rs st)
                  = Some (Json (readProgress (updateProgress u rs st)))).
  { unfold updateProgress. rewrite Ht. reflexivity. }
  assert (Hview : renderDashboard (updateProgress u rs st)
                  = if (size after =? 0)%nat
                    then DashMessage "No progress yet. Start learning to see your results."
                    else DashTable (computeSummary after)
                           (map (fun '(w, c) => wordRow w c) (map_to_list after))).
  { unfold renderDashboard. rewrite Hname, Hprog.
    destruct u as [|ch u']; [congruence | reflexivity]. }
  split; [apply countedResults_all|]. split.
  - intros Hcounted.
    assert (Hsize : size after <> 0%nat).
    { destruct (countedResults (readProgress st) u rs) as [|r counted] eqn:Ec;
        [congruence|].
      assert (Hin : In r (countedResults (readProgress st) u rs))
        by (rewrite Ec; left; reflexivity).
      unfold countedResults in Hin. apply List.filter_In in Hin as [Hin Hr].
      apply (map_size_ne_0_lookup_2 _ (Result.word r)).
      unfold after. rewrite countersOf_lookup, (updateProgress_counterOf u rs st _ Ht).
      destruct (counterOf (readProgress st) u (Result.word r)); [eauto|].
      rewrite Hr, (proj2 (Z.ltb_lt _ _) (timesAnswered_In r rs Hin)). cbn [andb]. eauto. }
    destruct (fold_recordResult_totals u rs (ensureUser u (readProgress st))
                (ensureUser_settled u (readProgress st))) as [Ha Hc].
    cbv zeta in Ha, Hc.
    rewrite countersOf_ensureUser, countedResults_ensureUser, <- Hread in Ha, Hc.
    fold after in Ha, Hc.
    exists (computeSummary after),
           (map (fun '(w, c) => wordRow w c) (map_to_list after)).
    split.
    + rewrite Hview. apply Nat.eqb_neq in Hsize. rewrite Hsize. reflexivity.
    + cbn [computeSummary sumAttempts sumCorrect wordCount].
      split; [exact Ha|]. split; [exact Hc | lia].
  - intros Hnone Hempty. rewrite Hview.
    assert (Hafter : after = ∅).
    { unfold after. rewrite Hread, fold_recordResult_uncounted.
      - rewrite countersOf_ensureUser. exact Hempty.
      - apply ensureUser_settled.
      - rewrite countedResults_ensureUser. exact Hnone. }
    rewrite Hafter. reflexivity.
Qed.

Lemma dashboard_after_update_witness :
  item_username pastStore = Some "Ann" /\ "Ann" <> EmptyString /\
  countedResults (readProgress pastStore) "Ann" mixedResults <> [] /\
  (exists summary rows,
      renderDashboard (updateProgress "Ann" mixedResults pastStore)
      = DashTable summary rows /\
      sumAttempts summary = 43%Z /\ sumCorrect summary = 25%Z) /\
  renderDashboard
    (updateProgress "Ann"
       [ {| Result.word := "constructor"; Result.correct := true |} ] demoStore)
  = DashMessage "No progress yet. Start learning to see your results.".
Proof.
  assert (Hu : item_username pastStore = Some "Ann") by reflexivity.
  assert (Hn : "Ann" <> EmptyString) by discriminate.
  assert (Hr : countedResults (readProgress pastStore) "Ann" mixedResults <> [])
    by (vm_compute; discriminate).
  split; [exact Hu|]. split; [exact Hn|]. split; [exact Hr|]. split.
  - destruct (dashboard_after_update "Ann" mixedResults pastStore Hu Hn)
      as (_ & Htable & _).
    destruct (Htable Hr) as (summary & rows & E & Ha & Hc & _).
    exists summary, rows. split; [exact E|]. split.
    + rewrite Ha. vm_compute. reflexivity.
    + rewrite Hc. vm_compute. reflexivity.
  - apply (dashboard_after_update "Ann"
             [ {| Result.word := "constructor"; Result.correct := true |} ]
             demoStore eq_refl Hn);
      vm_compute; reflexivity.
Defined.

Lemma foldr_attempts (l : list (string * Counter.t)) :
  foldr (uncurry (fun (_ : string) c total => (total + Counter.attempts c)%Z)) 0%Z l
  = sumZ (map rowAttempts (map (fun '(w, c) => wordRow w c) l)).
Proof.
  induction l as [|[w c] l IH]; [reflexivity|].
  cbn [foldr map sumZ fold_right uncurry]. rewrite IH.
  unfold sumZ, wordRow, rowAttempts. cbn. lia.
Qed.

Lemma foldr_correct (l : list (string * Counter.t)) :
  foldr (uncurry (fun (_ : string) c total => (total + Counter.correct c)%Z)) 0%Z l
  = sumZ (map rowCorrect (map (fun '(w, c) => wordRow w c) l)).
Proof.
  induction l as [|[w c] l IH]; [reflexivity|].
  cbn [foldr map sumZ fold_right uncurry]. rewrite IH.
  unfold sumZ, wordRow, rowCorrect. cbn. lia.
Qed.

(** X17: when the dashboard shows the table, the summary agrees with
    the rows: the number of words is the number of rows, at least one,
    each word has one row, and the totals of attempts and of correct
    answers are the sums of the two columns. *)
Theorem dashboard_summary_matches_rows :
  forall (st : Storage) (summary : Summary) (rows : list (string * Z * Z * Z)),
    renderDashboard st = DashTable summary rows ->
    wordCount summary = length rows /\ (1 <= length rows)%nat /\
    NoDup (map rowWord rows) /\
    sumAttempts summary = sumZ (map rowAttempts rows) /\
    sumCorrect summary = sumZ (map rowCorrect rows).
Proof.
  intros st summary rows. unfold renderDashboard.
  destruct (item_username st) as [[|ch name]|]; try discriminate.
  destruct (item_progress st) as [[|progress]|]; try discriminate.
  set (m := default ∅ (progress !! String ch name)).
  destruct (size m =? 0)%nat eqn:Es; [discriminate|].
  apply Nat.eqb_neq in Es. intros [= <- <-].
  cbn [computeSummary wordCount sumAttempts sumCorrect].
  rewrite length_map, length_map_to_list.
  split; [reflexivity|]. split; [lia|]. split.
  - rewrite map_map.
    replace (map (fun x => rowWord (let '(w, c) := x in wordRow w c)) (map_to_list m))
      with (map fst (map_to_list m)).
    + apply NoDup_fst_map_to_list.
    + apply map_ext. intros [w c]. reflexivity.
  - unfold totalAttempts, totalCorrect. rewrite !map_fold_foldr.
    split; [apply foldr_attempts | apply foldr_correct].
Qed.

Lemma dashboard_summary_matches_rows_witness :
  exists summary rows,
    renderDashboard (updateProgress "Ann" demoResults demoStore)
    = DashTable summary rows /\
    wordCount summary = length rows /\
    sumAttempts summary = sumZ (map rowAttempts rows).
Proof.
  eexists. eexists. split; [vm_compute; reflexivity|].
  split;
    apply (dashboard_summary_matches_rows
             (updateProgress "Ann" demoResults demoStore) _ _ eq_refl).
Defined.

Lemma In_map_to_list (m : gmap string (gmap string Counter.t)) u entries :
  In (u, entries) (map_to_list m) <-> m !! u = Some entries.
Proof. rewrite <- list_elem_of_In. apply elem_of_map_to_list. Qed.

Lemma adminRows_In (progress : gmap string (gmap string Counter.t)) u sm :
  In (u, sm) (map (fun '(student, entries) => (student, computeSummary entries))
                (map_to_list progress)) <->
  exists entries, progress !! u = Some entries /\ sm = computeSummary entries.
Proof.
  rewrite in_map_iff. split.
  - intros ([student entries] & [= -> <-] & Hin). exists entries.
    split; [apply In_map_to_list, Hin | reflexivity].
  - intros (entries & Hl & ->). exists (u, entries).
    split; [reflexivity | apply In_map_to_list, Hl].
Qed.

(** X18: after [updateProgress] for a non-empty name that has an entry
    in the store or is not a name inherited from [Object.prototype], with
    results or without, the admin page shows the table with one row per
    student; the row of that student has the totals grown by the number of
    counted results and of correct ones among them (a student seen for the
    first time without counted results has a row of zeros); the rows of
    the other students are those of the store before. For an inherited
    name without entry the progress stays as it was, and the table, if
    there is one, has no row for the name. *)
Theorem admin_after_update :
  forall (u : string) (rs : list Result.t) (st : Storage),
    u <> EmptyString ->
    let before := readProgress st in
    let after := readProgress (updateProgress u rs st) in
    let counted := countedResults before u rs in
    (is_Some (before !! u) \/ Js.inheritedName u = false ->
     exists rows,
       renderAdminProgress (updateProgress u rs st) = AdminTable rows /\
       length rows = size after /\
       (exists sm,
           In (u, sm) rows /\
           sumAttempts sm
           = (totalAttempts (countersOf before u) + Z.of_nat (length counted))%Z /\
           sumCorrect sm
           = (totalCorrect (countersOf before u) + Z.of_nat (length counted)
              - Z.of_nat (incorrectCount counted))%Z) /\
       (forall u' sm',
           u' <> u ->
           (In (u', sm') rows <->
            exists entries, before !! u' = Some entries /\
                            sm' = computeSummary entries))) /\
    (before !! u = None -> Js.inheritedName u = true ->
     after = before /\
     forall rows sm,
       renderAdminProgress (updateProgress u rs st) = AdminTable rows ->
       ~ In (u, sm) rows).
Proof.
  intros u rs st Hne. cbv zeta.
  pose proof (proj2 (truthy_iff u) Hne) as Ht.
  pose proof (updateProgress_read u rs st Ht) as Hread.
  set (after := readProgress (updateProgress u rs st)) in *.
  assert (Hprog : item_progress (updateProgress u rs st) = Some (Json after)).
  { unfold after, updateProgress. rewrite Ht. reflexivity. }
  split.
  - intros Hentry.
    assert (Hsome : is_Some (after !! u)).
    { rewrite Hread. apply fold_recordResult_is_Some.
      destruct Hentry as [Hsome|Hu]; [|apply ensureUser_is_Some, Hu].
      rewrite (ensureUser_present u _ Hsome). exact Hsome. }
    exists (map (fun '(student, entries) => (student, computeSummary entries))
              (map_to_list after)).
    split; [|split; [|split]].
    + unfold renderAdminProgress. rewrite Hprog.
      pose proof (map_size_ne_0_lookup_2 after u Hsome) as Hsize.
      apply Nat.eqb_neq in Hsize. rewrite Hsize. reflexivity.
    + rewrite length_map. apply length_map_to_list.
    + destruct Hsome as [entries Hl]. exists (computeSummary entries).
      split; [apply adminRows_In; eauto|].
      destruct (fold_recordResult_totals u rs (ensureUser u (readProgress st))
                  (ensureUser_settled u (readProgress st))) as [Ha Hc].
      cbv zeta in Ha, Hc.
      rewrite countersOf_ensureUser, countedResults_ensureUser, <- Hread in Ha, Hc.
      unfold countersOf at 1 in Ha. unfold countersOf at 1 in Hc.
      rewrite Hl in Ha, Hc. cbn [from_option id] in Ha, Hc.
      split; [exact Ha | exact Hc].
    + intros u' sm' Hu'. rewrite adminRows_In.
      unfold after. rewrite (updateProgress_other_user u rs st u' Hu'). reflexivity.
  - intros Hnone Hu.
    assert (Hsame : after = readProgress st).
    { rewrite Hread.
      assert (He : ensureUser u (readProgress st) = readProgress st).
      { unfold ensureUser. rewrite Hnone, Hu. reflexivity. }
      rewrite He. apply fold_recordResult_none, Hnone. }
    split; [exact Hsame|].
    intros rows sm. unfold renderAdminProgress. rewrite Hprog, Hsame.
    destruct (size (readProgress st) =? 0)%nat; [discriminate|].
    intros [= <-]. rewrite adminRows_In. intros (entries & Hl & _). congruence.
Qed.

Lemma admin_after_update_witness :
  "Bob" <> EmptyString /\
  (is_Some (readProgress pastStore !! "Bob") \/ Js.inheritedName "Bob" = false) /\
  (exists rows,
      renderAdminProgress (updateProgress "Bob" mixedResults pastStore)
      = AdminTable rows /\
      length rows = 2%nat /\
      exists sm, In ("Bob", sm) rows /\ sumAttempts sm = 3%Z /\ sumCorrect sm = 2%Z) /\
  readProgress (updateProgress "constructor" demoResults pastStore)
  = readProgress pastStore.
Proof.
  assert (Hn : "Bob" <> EmptyString) by discriminate.
  assert (He : is_Some (readProgress pastStore !! "Bob")
               \/ Js.inheritedName "Bob" = false) by (right; reflexivity).
  split; [exact Hn|]. split; [exact He|]. split.
  - destruct (admin_after_update "Bob" mixedResults pastStore Hn) as [Htable _].
    destruct (Htable He) as (rows & E & Hlen & (sm & Hin & Ha & Hc) & _).
    exists rows. split; [exact E|]. split; [rewrite Hlen; vm_compute; reflexivity|].
    exists sm. split; [exact Hin|]. split.
    + rewrite Ha. vm_compute. reflexivity.
    + rewrite Hc. vm_compute. reflexivity.
  - assert (Hc : "constructor" <> EmptyString) by discriminate.
    destruct (admin_after_update "constructor" demoResults pastStore Hc) as [_ Hsame].
    apply Hsame; vm_compute; reflexivity.
Defined.

(** ** Every order can come out of the shuffle *)

Lemma swap_length {A} (i j : nat) (l : list A) : length (swap i j l) = length l.
Proof. apply Permutation_length, swap_Permutation. Qed.

Lemma swap_app {A} (i j : nat) (a b : list A) :
  (i < length a)%nat -> (j < length a)%nat ->
  swap i j (a ++ b) = swap i j a ++ b.
Proof.
  intros Hi Hj. unfold swap. rewrite !lookup_app_l by assumption.
  destruct (a !! i) as [x|]; [|reflexivity].
  destruct (a !! j) as [y|]; [|reflexivity].
  rewrite insert_app_l by assumption.
  rewrite insert_app_l by (rewrite length_insert; assumption). reflexivity.
Qed.

Lemma randomIndex_bound (i : nat) (r : Rng) : (fst (randomIndex i r) <= i)%nat.
Proof.
  unfold randomIndex. cbn [fst].
  pose proof (Nat.mod_upper_bound (hd 0%nat r) (i + 1)). lia.
Qed.

(** The shuffle of the first [i + 1] elements leaves the rest alone. *)
Lemma shuffleFrom_app {A} (i : nat) :
  forall (a b : list A) (r : Rng),
    (i < length a)%nat ->
    shuffleFrom i (a ++ b) r
    = (fst (shuffleFrom i a r) ++ b, snd (shuffleFrom i a r)).
Proof.
  induction i as [|i IH]; intros a b r Hi; [reflexivity|].
  cbn [shuffleFrom].
  pose proof (randomIndex_bound (S i) r) as Hj.
  destruct (randomIndex (S i) r) as [j r']. cbn [fst] in Hj.
  rewrite swap_app by lia.
  apply IH. rewrite swap_length. lia.
Qed.

Lemma swap_last {A} (n j : nat) (l : list A) (x : A) :
  length l = S n -> l !! j = Some x ->
  exists l1, swap n j l = l1 ++ [x] /\ length l1 = n.
Proof.
  intros Hlen Hj.
  assert (Hn : (swap n j l) !! n = Some x).
  { unfold swap. destruct (lookup_lt_is_Some_2 l n) as [y Hy]; [lia|].
    rewrite Hy, Hj. destruct (decide (j = n)) as [->|Hne].
    - rewrite list_lookup_insert_eq by (rewrite length_insert; lia). congruence.
    - rewrite list_lookup_insert_ne by assumption.
      apply list_lookup_insert_eq. lia. }
  exists (take n (swap n j l)). split.
  - rewrite <- (take_S_r _ _ _ Hn). symmetry. apply take_ge.
    rewrite swap_length. lia.
  - rewrite length_take, swap_length. lia.
Qed.

(** X19: every order of the array can come out of [shuffleArray]: for
    each permutation of the array there are random draws that produce
    it. *)
Theorem shuffleArray_reaches_every_order :
  forall (A : Type) (array target : list A),
    Permutation array target ->
    exists r : Rng, fst (shuffleArray array r) = target.
Proof.
  intros A array target. revert array.
  induction target as [|x target IH] using rev_ind; intros array Hp.
  - apply Permutation_sym, Permutation_nil in Hp. subst. exists []. reflexivity.
  - assert (Hin : In x array).
    { apply (Permutation_in _ (Permutation_sym Hp)), in_or_app. right. left. reflexivity. }
    apply list_elem_of_In, list_elem_of_lookup in Hin as [j Hj].
    pose proof (lookup_lt_Some _ _ _ Hj) as Hjlt.
    pose proof (Permutation_length Hp) as Hlen.
    rewrite length_app in Hlen. cbn [length] in Hlen.
    destruct (swap_last (length target) j array x) as (l1 & Hswap & Hl1);
      [lia | exact Hj |].
    assert (Hp1 : Permutation l1 target).
    { apply (Permutation_app_inv_r [x]).
      rewrite <- Hswap. rewrite swap_Permutation. exact Hp. }
    destruct (IH l1 Hp1) as [r' Hr'].
    exists (j :: r'). unfold shuffleArray in *.
    replace (length array - 1)%nat with (length target) by lia.
    destruct (length target) as [|n] eqn:En.
    + cbn [shuffleFrom fst]. destruct l1; [|discriminate].
      apply Permutation_nil in Hp1. subst target.
      destruct array as [|y [|z array]]; try discriminate.
      cbn in Hswap. destruct j; [|discriminate]. cbn in Hswap. exact Hswap.
    + cbn [shuffleFrom]. unfold randomIndex. cbn [hd tl].
      rewrite Nat.mod_small by lia.
      rewrite Hswap, shuffleFrom_app by lia. cbn [fst].
      rewrite Hl1 in Hr'. replace (S n - 1)%nat with n in Hr' by lia.
      rewrite Hr'. reflexivity.
Qed.

Lemma shuffleArray_reaches_every_order_witness :
  Permutation [1; 2; 3]%nat [3; 1; 2]%nat /\
  exists r : Rng, fst (shuffleArray [1; 2; 3]%nat r) = [3; 1; 2]%nat.
Proof.
  assert (Hp : Permutation [1; 2; 3]%nat [3; 1; 2]%nat).
  { apply (perm_trans (l' := [1; 3; 2]%nat)).
    - apply perm_skip, perm_swap.
    - apply perm_swap. }
  split; [exact Hp|].
  apply (shuffleArray_reaches_every_order nat [1; 2; 3]%nat [3; 1; 2]%nat Hp).
Defined.

(** ** The first line *)

Lemma hasLF_hasChar (s : string) :
  hasLF s = hasChar (fun c => Ascii.eqb c Js.LF) s.
Proof. induction s as [|c s IH]; [reflexivity|]. simpl. rewrite IH. reflexivity. Qed.

Lemma splitLines_single (s : string) :
  hasLF s = false -> exists l, Js.splitLines s = [l].
Proof.
  induction s as [|c s IH]; [intros _; exists EmptyString; reflexivity|].
  cbn [hasLF]. intros [Hc Hs]%orb_false_iff.
  destruct (IH Hs) as [l Hl]. cbn [Js.splitLines]. rewrite Hc.
  assert (Hstart : Js.startsWith Js.LF s = false).
  { destruct s as [|d s']; [reflexivity|]. cbn [hasLF] in Hs.
    apply orb_false_iff in Hs as [Hd _]. cbn [Js.startsWith].
    rewrite Ascii.eqb_sym. exact Hd. }
  rewrite Hstart, andb_false_r, Hl. exists (String c l). reflexivity.
Qed.

(** X20: the first line of the text is dropped whatever it holds, a
    header or a row: what follows a first line without line feed parses
    to the same entries under any such first line that is not blank, line
    by line, and a text of one line yields no entry. *)
Theorem parseCSV_drops_first_line :
  forall first : string,
    hasLF first = false ->
    parseCSV first = [] /\
    (isBlank first = false ->
     forall rest,
       parseCSV (first +:+ nl +:+ rest)
       = flat_map entriesOfLine (Js.splitLines rest)).
Proof.
  intros first Hlf. split.
  - rewrite parseCSV_lines.
    destruct (splitLines_single (Js.trimStart first)) as [l Hl].
    + rewrite hasLF_hasChar. apply hasChar_trimStart.
      rewrite <- hasLF_hasChar. exact Hlf.
    + rewrite Hl. reflexivity.
  - intros Hb rest. rewrite parseCSV_lines.
    rewrite trimStart_app by (apply trimStart_not_blank, Hb).
    destruct (splitLines_one_line (Js.trimStart first)) as (l & w & _ & _ & Hy).
    + rewrite hasLF_hasChar. apply hasChar_trimStart.
      rewrite <- hasLF_hasChar. exact Hlf.
    + rewrite Hy. reflexivity.
Qed.

Lemma parseCSV_drops_first_line_witness :
  hasLF "cat,feline,kitty;tomcat,dog,A cat sat." = false /\
  isBlank "cat,feline,kitty;tomcat,dog,A cat sat." = false /\
  parseCSV "cat,feline,kitty;tomcat,dog,A cat sat." = [] /\
  parseCSV ("cat,feline,kitty;tomcat,dog,A cat sat." +:+ nl +:+
            "dog,canine,hound;pooch,cat,A dog ran.")
  = flat_map entriesOfLine (Js.splitLines "dog,canine,hound;pooch,cat,A dog ran.").
Proof.
  split; [reflexivity|]. split; [reflexivity|].
  destruct (parseCSV_drops_first_line "cat,feline,kitty;tomcat,dog,A cat sat." eq_refl)
    as [H1 H2].
  split; [exact H1 | apply (H2 eq_refl)].
Defined.
